(** * Audio_Stego: the LSB codec and the embed / extract endpoints

    A shallow embedding of [backend/app/app.py].  Python [bytes] are lists
    of [byte]; a Python [int] is a [Z]; a [str] is the list of its code
    points; a raised exception is the [Raise] case of [result].  The
    third-party libraries the module calls ([cryptography], [wave], the
    operating system's random source and clock) are an interface,
    [Externals], with the contracts the program relies on stated apart
    in [FernetContract] and [WaveContract]. *)

From Stdlib Require Import ZArith Lia Strings.Byte String Ascii.
From stdpp Require Import base tactics option list numbers.

Local Open Scope Z_scope.

(** ** Python values *)

Abbreviation bytes := (list byte) (only parsing).

(** A code point per character, as [ord] gives it. *)
Abbreviation str := (list Z) (only parsing).

(** [b[i]] of a [bytes] object: an [int] in [range(256)]. *)
Definition byte_to_Z (b : byte) : Z := Z.of_N (Byte.to_N b).

(** Storing an [int] into a [bytearray]: only [range(256)] is accepted. *)
Definition byte_of_Z (z : Z) : option byte :=
  if (0 <=? z) && (z <? 256) then Byte.of_N (Z.to_N z) else None.

#[global] Instance byte_eq_decision : EqDecision byte := Byte.byte_eq_dec.

Definition len {A} (l : list A) : Z := Z.of_nat (length l).

Definition str_of_string (s : string) : str :=
  map (fun a => Z.of_N (N_of_ascii a)) (list_ascii_of_string s).

Definition bytes_of_string (s : string) : bytes :=
  map byte_of_ascii (list_ascii_of_string s).

(** ** Exceptions *)

Inductive exn : Type :=
| HTTPException (status_code : Z) (detail : string)
| ValueError (msg : string)
| UnicodeEncodeError
| UnicodeDecodeError
| StructError (msg : string)
| InvalidToken
| IndexError
| WaveError
| EOFError.

(** [isinstance(e, ValueError)]: the Unicode errors derive from it. *)
Definition is_ValueError (e : exn) : bool :=
  match e with
  | ValueError _ | UnicodeEncodeError | UnicodeDecodeError => true
  | _ => false
  end.

Definition is_InvalidToken (e : exn) : bool :=
  match e with InvalidToken => true | _ => false end.

Inductive result (A : Type) : Type :=
| Ok (a : A)
| Raise (e : exn).
Arguments Ok {A} a.
Arguments Raise {A} e.

Definition bind {A B} (r : result A) (k : A -> result B) : result B :=
  match r with
  | Ok a => k a
  | Raise e => Raise e
  end.

Notation "x <- e ;; k" := (bind e (fun x => k))
  (at level 20, e at level 99, k at level 200, only parsing).
Notation "' p <- e ;; k" := (bind e (fun p => k))
  (at level 20, p pattern, e at level 99, k at level 200, only parsing).

(** A [for] loop whose body may raise, threading the loop state. *)
Fixpoint foldM {A S} (body : S -> A -> result S) (xs : list A) (s : S)
  : result S :=
  match xs with
  | [] => Ok s
  | x :: xs' => s' <- body s x ;; foldM body xs' s'
  end.

(** A list comprehension whose element expression may raise. *)
Fixpoint mapR {A B} (f : A -> result B) (xs : list A) : result (list B) :=
  match xs with
  | [] => Ok []
  | x :: xs' => y <- f x ;; ys <- mapR f xs' ;; Ok (y :: ys)
  end.

(** [seq[i]] for a non-negative index. *)
Definition getitem (frames : bytes) (i : nat) : result Z :=
  match frames !! i with
  | Some b => Ok (byte_to_Z b)
  | None => Raise IndexError
  end.

(** [bytearray.append(v)] and [bytearray[i] = v] check the value. *)
Definition checked_byte (v : Z) : result byte :=
  match byte_of_Z v with
  | Some b => Ok b
  | None => Raise (ValueError "byte must be in range(0, 256)")
  end.

(** [range(start, stop, step)] for a positive step. *)
Definition range_step (start stop step : nat) : list nat :=
  map (fun k => (start + k * step)%nat)
      (seq 0 (Nat.div (stop - start + (step - 1)) step)).

(** ** [struct]: the [">I"] format *)

Definition struct_pack_I (n : Z) : result bytes :=
  if (0 <=? n) && (n <? 2 ^ 32) then
    b3 <- checked_byte ((n / 2 ^ 24) mod 256) ;;
    b2 <- checked_byte ((n / 2 ^ 16) mod 256) ;;
    b1 <- checked_byte ((n / 2 ^ 8) mod 256) ;;
    b0 <- checked_byte (n mod 256) ;;
    Ok [b3; b2; b1; b0]
  else Raise (StructError "'I' format requires 0 <= number <= 4294967295").

Definition struct_unpack_I (data : bytes) : result Z :=
  match data with
  | [b3; b2; b1; b0] =>
      Ok (((byte_to_Z b3 * 256 + byte_to_Z b2) * 256 + byte_to_Z b1) * 256
          + byte_to_Z b0)
  | _ => Raise (StructError "unpack requires a buffer of 4 bytes")
  end.

(** ** The bit codec *)

Definition MAGIC : bytes := bytes_of_string "STEG".
Definition SALT_LEN : Z := 16.
Definition PBKDF2_ITERS : Z := 390000.

Definition _bytes_to_bits (data : bytes) : list Z :=
  fold_left
    (fun bits byte =>
       fold_left
         (fun bits i => bits ++ [Z.land (Z.shiftr (byte_to_Z byte) i) 1])
         [7; 6; 5; 4; 3; 2; 1; 0] bits)
    data [].

Definition _bits_to_bytes (bits : list Z) : result bytes :=
  if negb (len bits mod 8 =? 0) then
    Raise (ValueError "Bit length must be multiple of 8")
  else
    foldM
      (fun out i =>
         let byte :=
           fold_left (fun byte b => Z.lor (Z.shiftl byte 1) b)
                     (take 8 (drop i bits)) 0 in
         b <- checked_byte byte ;;
         Ok (out ++ [b]))
      (range_step 0 (length bits) 8) [].

Definition _embed_payload (frames payload : bytes) : result bytes :=
  length_prefix <- struct_pack_I (len payload) ;;
  let data := length_prefix ++ payload in
  let bits := _bytes_to_bits data in
  if len bits >? len frames then
    Raise (HTTPException 400 "Audio too small for payload")
  else
    foldM
      (fun frame_array '(i, bit) =>
         x <- getitem frame_array i ;;
         y <- checked_byte (Z.lor (Z.land x 254) bit) ;;
         Ok (<[i := y]> frame_array))
      (imap (fun i bit => (i, bit)) bits) frames.

Definition _extract_payload (frames : bytes) : result bytes :=
  if len frames <? 32 then
    Raise (HTTPException 400 "Audio too short")
  else
    length_bits <- mapR (fun i => x <- getitem frames i ;; Ok (Z.land x 1))
                        (seq 0 32) ;;
    length_bytes <- _bits_to_bytes length_bits ;;
    length <- struct_unpack_I length_bytes ;;
    let total_bits := length * 8 in
    if 32 + total_bits >? len frames then
      Raise (HTTPException 400 "Corrupted or incomplete data")
    else
      payload_bits <- mapR (fun i => x <- getitem frames i ;; Ok (Z.land x 1))
                           (seq 32 (Z.to_nat total_bits)) ;;
      _bits_to_bytes payload_bits.

Definition zeros (n : nat) : bytes := repeat "000"%byte n.

Definition is_bit (z : Z) : Prop := z = 0 \/ z = 1.

(** The least-significant bit of every sample, in order. *)
Definition lsbs (frames : bytes) : list Z :=
  map (fun b => Z.land (byte_to_Z b) 1) frames.

(** The sample [x] with its least-significant bit replaced by [bit]. *)
Definition set_lsb (x : byte) (bit : Z) : byte :=
  default x (byte_of_Z (Z.lor (Z.land (byte_to_Z x) 254) bit)).

(** The eight bits of one byte, most significant first. *)
Definition byte_bits (b : byte) : list Z :=
  map (fun i => Z.land (Z.shiftr (byte_to_Z b) i) 1) [7; 6; 5; 4; 3; 2; 1; 0].

(** The byte whose bits, most significant first, are [chunk]. *)
Definition bits_byte (chunk : list Z) : byte :=
  default "000"%byte
    (byte_of_Z (fold_left (fun byte b => Z.lor (Z.shiftl byte 1) b) chunk 0)).

(** The unsigned integer a big-endian bit sequence denotes. *)
Definition be_int (bits : list Z) : Z :=
  fold_left (fun acc b => 2 * acc + b) bits 0.

(** What the loop of [_embed_payload] computes: bit [i] replaces the
    least-significant bit of sample [i]; the samples after the last bit
    are kept. *)
Fixpoint embed_bits (frames : bytes) (bits : list Z) {struct bits} : bytes :=
  match bits, frames with
  | bit :: bits', x :: frames' => set_lsb x bit :: embed_bits frames' bits'
  | _, _ => frames
  end.

(** The length [_extract_payload] reads: the big-endian integer spelled
    by the least-significant bits of the first 32 samples. *)
Definition declared_length (frames : bytes) : Z :=
  be_int (take 32 (lsbs frames)).

Definition pack_error : exn :=
  StructError "'I' format requires 0 <= number <= 4294967295".

(** ** [str] and [bytes] methods the module calls *)

Definition is_code_point (c : Z) : bool := (0 <=? c) && (c <? 0x110000).

Definition is_surrogate (c : Z) : bool := (0xD800 <=? c) && (c <=? 0xDFFF).

(** Text that travels as UTF-8 (an HTTP form field): Unicode scalar
    values only. *)
Definition is_text (s : str) : Prop :=
  Forall (fun c => is_code_point c && negb (is_surrogate c) = true) s.

Definition to_byte (z : Z) : byte := default "000"%byte (byte_of_Z z).

Definition utf8_encode_char (c : Z) : result bytes :=
  if negb (is_code_point c) || is_surrogate c then Raise UnicodeEncodeError
  else if c <? 0x80 then Ok [to_byte c]
  else if c <? 0x800 then
    Ok [to_byte (0xC0 + c / 64); to_byte (0x80 + c mod 64)]
  else if c <? 0x10000 then
    Ok [to_byte (0xE0 + c / 4096); to_byte (0x80 + (c / 64) mod 64);
        to_byte (0x80 + c mod 64)]
  else
    Ok [to_byte (0xF0 + c / 262144); to_byte (0x80 + (c / 4096) mod 64);
        to_byte (0x80 + (c / 64) mod 64); to_byte (0x80 + c mod 64)].

(** [s.encode("utf-8")] *)
Definition str_encode (s : str) : result bytes :=
  chunks <- mapR utf8_encode_char s ;; Ok (concat chunks).

Definition is_cont (x : Z) : bool := (0x80 <=? x) && (x <? 0xC0).

(** [data.decode("utf-8")]: strict, so overlong forms, surrogates and
    values past U+10FFFF are refused. *)
Fixpoint bytes_decode (data : bytes) : result str :=
  match data with
  | [] => Ok []
  | b0 :: r0 =>
      let x0 := byte_to_Z b0 in
      if x0 <? 0x80 then s <- bytes_decode r0 ;; Ok (x0 :: s)
      else if x0 <? 0xC2 then Raise UnicodeDecodeError
      else if x0 <? 0xE0 then
        match r0 with
        | b1 :: r1 =>
            let x1 := byte_to_Z b1 in
            if is_cont x1 then
              s <- bytes_decode r1 ;;
              Ok ((x0 - 0xC0) * 64 + (x1 - 0x80) :: s)
            else Raise UnicodeDecodeError
        | _ => Raise UnicodeDecodeError
        end
      else if x0 <? 0xF0 then
        match r0 with
        | b1 :: b2 :: r2 =>
            let x1 := byte_to_Z b1 in
            let x2 := byte_to_Z b2 in
            let c := (x0 - 0xE0) * 4096 + (x1 - 0x80) * 64 + (x2 - 0x80) in
            if is_cont x1 && is_cont x2 && (0x800 <=? c)
               && negb (is_surrogate c) then
              s <- bytes_decode r2 ;; Ok (c :: s)
            else Raise UnicodeDecodeError
        | _ => Raise UnicodeDecodeError
        end
      else if x0 <? 0xF5 then
        match r0 with
        | b1 :: b2 :: b3 :: r3 =>
            let x1 := byte_to_Z b1 in
            let x2 := byte_to_Z b2 in
            let x3 := byte_to_Z b3 in
            let c := (x0 - 0xF0) * 262144 + (x1 - 0x80) * 4096
                     + (x2 - 0x80) * 64 + (x3 - 0x80) in
            if is_cont x1 && is_cont x2 && is_cont x3 && (0x10000 <=? c)
               && (c <? 0x110000) then
              s <- bytes_decode r3 ;; Ok (c :: s)
            else Raise UnicodeDecodeError
        | _ => Raise UnicodeDecodeError
        end
      else Raise UnicodeDecodeError
  end.

(** [c.isspace()], the characters [str.strip()] removes. *)
Definition isspace (c : Z) : bool :=
  ((0x09 <=? c) && (c <=? 0x0D)) || ((0x1C <=? c) && (c <=? 0x20))
  || (c =? 0x85) || (c =? 0xA0) || (c =? 0x1680)
  || ((0x2000 <=? c) && (c <=? 0x200A))
  || (c =? 0x2028) || (c =? 0x2029) || (c =? 0x202F) || (c =? 0x205F)
  || (c =? 0x3000).

Fixpoint lstrip (s : str) : str :=
  match s with
  | c :: s' => if isspace c then lstrip s' else s
  | [] => []
  end.

Definition rstrip (s : str) : str := rev (lstrip (rev s)).

(** [s.strip()] *)
Definition strip (s : str) : str := rstrip (lstrip s).

(** Truth value of a sequence: non-empty. *)
Definition truthy {A} (l : list A) : bool :=
  match l with [] => false | _ => true end.

(** [s.lower()] on the ASCII letters.  No character outside ASCII
    lowercases to one of [.], [w], [a], [v], so the suffix test of
    [_read_wave] is decided by these alone. *)
Definition lower (s : str) : str :=
  map (fun c => if (0x41 <=? c) && (c <=? 0x5A) then c + 32 else c) s.

Definition endswith (s suffix : str) : bool :=
  (length suffix <=? length s)%nat
  && bool_decide (drop (length s - length suffix) s = suffix).

Definition startswith (data prefix : bytes) : bool :=
  bool_decide (take (length prefix) data = prefix).

(** [s[a:b]] for indices that are not negative. *)
Definition slice {A} (l : list A) (a b : Z) : list A :=
  take (Z.to_nat (b - a)) (drop (Z.to_nat a) l).

Fixpoint before_last (sep : Z) (s : str) : option str :=
  match s with
  | [] => None
  | c :: s' =>
      match before_last sep s' with
      | Some h => Some (c :: h)
      | None => if c =? sep then Some [] else None
      end
  end.

(** [s.rsplit(sep, 1)[0]] for a one-character [sep]. *)
Definition rsplit1_head (s : str) (sep : Z) : str :=
  default s (before_last sep s).

(** [s.encode("latin-1")], the encoding of HTTP header values. *)
Definition latin1_encode (s : str) : result bytes :=
  mapR (fun c => if (0 <=? c) && (c <? 256) then Ok (to_byte c)
                 else Raise UnicodeEncodeError) s.

(** ** The world outside: random bytes and the clock *)

Record World := {
  entropy : nat -> byte;   (** the bytes the random source will deliver *)
  cursor : nat;            (** how many it has delivered *)
  clock : Z                (** [int(time.time())] *)
}.

(** Computations that may raise and may read the world. *)
Definition IO (A : Type) : Type := World -> result A * World.

(** [os.urandom(n)] *)
Definition os_urandom (n : Z) : IO bytes :=
  fun w =>
    (Ok (map (entropy w) (seq (cursor w) (Z.to_nat n))),
     {| entropy := entropy w; cursor := cursor w + Z.to_nat n;
        clock := clock w |}).

Definition ret {A} (a : A) : IO A := fun w => (Ok a, w).

Definition lift {A} (r : result A) : IO A := fun w => (r, w).

Definition bindIO {A B} (m : IO A) (k : A -> IO B) : IO B :=
  fun w => match m w with
           | (Ok a, w') => k a w'
           | (Raise e, w') => (Raise e, w')
           end.

Notation "x <~ e ;; k" := (bindIO e (fun x => k))
  (at level 20, e at level 99, k at level 200, only parsing).
Notation "' p <~ e ;; k" := (bindIO e (fun p => k))
  (at level 20, p pattern, e at level 99, k at level 200, only parsing).

(** ** The libraries the module imports *)

Class Externals := {
  (** [wave._wave_params] *)
  wave_params : Type;
  (** [wave.open(io.BytesIO(raw), "rb")], its parameters and
      [readframes(getnframes())]; raises [wave.Error] or [EOFError]. *)
  wave_read : bytes -> result (wave_params * bytes);
  (** [setparams] and [writeframes] on a fresh buffer, read back;
      raises [wave.Error] when the writer refuses the parameters. *)
  wave_write : wave_params -> bytes -> result bytes;
  (** [PBKDF2HMAC(SHA256(), length, salt, iterations).derive(material)] *)
  pbkdf2_hmac_sha256 : Z -> bytes -> Z -> bytes -> bytes;
  (** [base64.urlsafe_b64encode] *)
  urlsafe_b64encode : bytes -> bytes;
  (** Whether [Fernet(key)] accepts [key]: 32 bytes, url-safe base64. *)
  fernet_key_ok : bytes -> bool;
  (** [Fernet(key)._encrypt_from_parts(data, current_time, iv)] *)
  fernet_encrypt_from_parts : bytes -> bytes -> Z -> bytes -> bytes;
  (** [Fernet(key).decrypt(token)]; [None] is [InvalidToken]. *)
  fernet_decrypt : bytes -> bytes -> option bytes
}.

(** What the program relies on from [cryptography]: a derived key is a
    key [Fernet] accepts, and decryption under the key of encryption
    returns the plaintext, whatever the IV and the timestamp. *)
Class FernetContract (E : Externals) : Prop := {
  derived_key_ok : forall salt material,
    fernet_key_ok
      (urlsafe_b64encode (pbkdf2_hmac_sha256 32 salt PBKDF2_ITERS material))
    = true;
  decrypt_encrypt : forall key data current_time iv,
    fernet_key_ok key = true -> length iv = 16%nat ->
    0 <= current_time < 2 ^ 64 ->
    fernet_decrypt key (fernet_encrypt_from_parts key data current_time iv)
    = Some data
}.

(** What the program relies on from [wave]: the data chunk of a WAV
    file has a 32-bit size, so the frames read from one are fewer than
    [2 ^ 32] bytes. *)
Class WaveContract (E : Externals) : Prop := {
  wave_read_size : forall (raw : bytes) (params : wave_params) (frames : bytes),
    wave_read raw = Ok (params, frames) -> len frames < 2 ^ 32
}.

(** ** The module *)

Section Program.
Context {E : Externals}.

(** [fastapi.UploadFile]: the declared name and the content. *)
Record UploadFile := {
  filename : option str;
  file : bytes
}.

(** [fastapi.responses.StreamingResponse] *)
Record StreamingResponse := {
  body : bytes;
  media_type : string;
  headers : list (string * str)
}.

Definition derive_key (passcode : str) (salt : bytes) : result bytes :=
  if negb (truthy passcode) then Raise (ValueError "Passcode is required")
  else
    material <- str_encode passcode ;;
    let key :=
      urlsafe_b64encode (pbkdf2_hmac_sha256 32 salt PBKDF2_ITERS material) in
    Ok key.

Definition _read_wave (upload : UploadFile) : result (wave_params * bytes) :=
  let name := default [] (filename upload) in
  if negb (truthy name) || negb (endswith (lower name) (str_of_string ".wav"))
  then Raise (HTTPException 400 "Only WAV files are supported")
  else
    match wave_read (file upload) with
    | Ok (params, frames) => Ok (params, frames)
    | Raise WaveError => Raise (HTTPException 400 "Invalid WAV file")
    | Raise e => Raise e
    end.

Definition _write_wave (params : wave_params) (frames : bytes)
  : result bytes :=
  wave_write params frames.

(** [StreamingResponse(content, media_type=..., headers=...)]: the
    constructor encodes every header value as Latin-1. *)
Definition StreamingResponse_init
  (content : bytes) (media : string) (hdrs : list (string * str))
  : result StreamingResponse :=
  _ <- mapR (fun kv => latin1_encode (snd kv)) hdrs ;;
  Ok {| body := content; media_type := media; headers := hdrs |}.

(** Lines 141 to 148 of [embed]: the container is written, the download
    is named and the response is built. *)
Definition stego_response
  (audio : UploadFile) (params : wave_params) (stego_frames : bytes)
  : result StreamingResponse :=
  out_bytes <- _write_wave params stego_frames ;;
  let name :=
    rsplit1_head
      (if truthy (default [] (filename audio))
       then default [] (filename audio) else str_of_string "stego.wav")
      0x2E
    ++ str_of_string "_stego.wav" in
  StreamingResponse_init out_bytes "audio/wav"
    [("Content-Disposition"%string,
      str_of_string "attachment; filename=" ++ name)].

(** [Fernet(key)]: the constructor refuses a malformed key. *)
Definition Fernet (key : bytes) : result bytes :=
  if fernet_key_ok key then Ok key
  else Raise (ValueError "Fernet key must be 32 url-safe base64-encoded bytes.").

(** [f.encrypt(data)]: the library reads the clock, draws a 16-byte IV
    and assembles the token. *)
Definition Fernet_encrypt (f : bytes) (data : bytes) : IO bytes :=
  fun w =>
    let current_time := clock w in
    (iv <~ os_urandom 16 ;;
     ret (fernet_encrypt_from_parts f data current_time iv)) w.

(** [f.decrypt(token)] *)
Definition Fernet_decrypt (f : bytes) (token : bytes) : result bytes :=
  match fernet_decrypt f token with
  | Some data => Ok data
  | None => Raise InvalidToken
  end.

Definition embed (audio : UploadFile) (message passcode : str)
  : IO StreamingResponse :=
  if negb (truthy (strip message)) then
    lift (Raise (HTTPException 400 "Message is required"))
  else
    '(params, frames) <~ lift (_read_wave audio) ;;
    salt <~ os_urandom SALT_LEN ;;
    key <~ lift (derive_key passcode salt) ;;
    f <~ lift (Fernet key) ;;
    data <~ lift (str_encode message) ;;
    token <~ Fernet_encrypt f data ;;
    let payload := MAGIC ++ salt ++ token in
    stego_frames <~ lift (_embed_payload frames payload) ;;
    lift (stego_response audio params stego_frames).

(** Lines 160 to 164 of [extract]: the marker test and the two slices. *)
Definition unframe (payload : bytes) : result (bytes * bytes) :=
  if negb (startswith payload MAGIC) then
    Raise (HTTPException 400 "No hidden payload found")
  else
    let salt := slice payload (len MAGIC) (len MAGIC + SALT_LEN) in
    let token := drop (length MAGIC + Z.to_nat SALT_LEN) payload in
    Ok (salt, token).

(** The body of the [try] of [extract]. *)
Definition decrypt_message (passcode : str) (salt token : bytes)
  : result str :=
  key <- derive_key passcode salt ;;
  f <- Fernet key ;;
  plaintext <- Fernet_decrypt f token ;;
  bytes_decode plaintext.

(** [except (InvalidToken, ValueError)] *)
Definition except_invalid {A} (r : result A) : result A :=
  match r with
  | Ok a => Ok a
  | Raise e =>
      if is_InvalidToken e || is_ValueError e then
        Raise (HTTPException 400 "Invalid passcode or payload")
      else Raise e
  end.

Definition extract (audio : UploadFile) (passcode : str)
  : result (list (string * str)) :=
  '(_, frames) <- _read_wave audio ;;
  payload <- _extract_payload frames ;;
  '(salt, token) <- unframe payload ;;
  message <- except_invalid (decrypt_message passcode salt token) ;;
  Ok [("message"%string, message)].

(** The token [embed] hides for [message] under [passcode] in world [w];
    its length is the [tokenLength] of the capacity condition. *)
Definition embed_token (message passcode : str) (w : World) : bytes :=
  let salt := map (entropy w) (seq (cursor w) 16) in
  let iv := map (entropy w) (seq (cursor w + 16) 16) in
  let material := match str_encode passcode with Ok m => m | _ => [] end in
  let data := match str_encode message with Ok d => d | _ => [] end in
  let key :=
    urlsafe_b64encode (pbkdf2_hmac_sha256 32 salt PBKDF2_ITERS material) in
  fernet_encrypt_from_parts key data (clock w) iv.

End Program.

(** ** The error kinds of the specification *)

Inductive ErrorKind : Type :=
| InvalidInput
| CapacityError
| CorruptionError
| FormatError
| AuthenticationError.

(** The kind each exception of the module stands for, by its message
    (section 7 of the specification). *)
Definition error_kind (e : exn) : option ErrorKind :=
  match e with
  | HTTPException _ detail =>
      if (detail =? "Message is required")%string then Some InvalidInput
      else if (detail =? "Audio too small for payload")%string
      then Some CapacityError
      else if (detail =? "Audio too short")%string then Some CapacityError
      else if (detail =? "Corrupted or incomplete data")%string
      then Some CorruptionError
      else if (detail =? "No hidden payload found")%string
      then Some FormatError
      else if (detail =? "Invalid passcode or payload")%string
      then Some AuthenticationError
      else None
  | ValueError msg =>
      if (msg =? "Passcode is required")%string then Some InvalidInput
      else if (msg =? "Bit length must be multiple of 8")%string
      then Some InvalidInput
      else None
  | _ => None
  end.

(** ** The codec as the specification words it *)

Fixpoint bits_to_bytes_spec (bits : list Z) : bytes :=
  match bits with
  | b7 :: b6 :: b5 :: b4 :: b3 :: b2 :: b1 :: b0 :: rest =>
      to_byte (be_int [b7; b6; b5; b4; b3; b2; b1; b0])
      :: bits_to_bytes_spec rest
  | _ => []
  end.

(** Section 4.1, [extract]: too short a buffer, a declared length the
    buffer cannot hold, or the bytes spelled by the next [8 * L]
    least-significant bits. *)
Definition extract_payload_spec (frames : bytes) : result bytes :=
  if len frames <? 32 then Raise (HTTPException 400 "Audio too short")
  else
    let L := declared_length frames in
    if len frames <? 32 + 8 * L then
      Raise (HTTPException 400 "Corrupted or incomplete data")
    else
      Ok (bits_to_bytes_spec
            (take (Z.to_nat (8 * L)) (drop 32 (lsbs frames)))).

(** ** A runnable stand-in for the libraries

    Enough to execute [embed] and [extract]: a headerless container of
    less than [2 ^ 32] bytes, the passcode material and salt as key, and a token that carries the key,
    the IV and the plaintext in the clear. *)

#[local] Instance plain_externals : Externals := {|
  wave_params := unit;
  wave_read raw :=
    if len raw <? 2 ^ 32 then Ok (tt, raw) else Raise WaveError;
  wave_write _ frames := Ok frames;
  pbkdf2_hmac_sha256 _ salt _ material := material ++ salt;
  urlsafe_b64encode key := key;
  fernet_key_ok _ := true;
  fernet_encrypt_from_parts key data _ iv := key ++ iv ++ data;
  fernet_decrypt key token :=
    if startswith token key then Some (drop (length key + 16) token)
    else None
|}.

Definition sample_world : World :=
  {| entropy := fun n => to_byte (Z.of_nat n mod 256);
     cursor := 0;
     clock := 1700000000 |}.

Definition sample_audio (n : nat) : UploadFile :=
  {| filename := Some (str_of_string "voice.wav"); file := zeros n |}.

(** ** Inputs for the examples *)

(** The samples after embedding, or the samples themselves when
    [_embed_payload] raises. *)
Definition stego_of (frames payload : bytes) : bytes :=
  match _embed_payload frames payload with
  | Ok out => out
  | Raise _ => frames
  end.

Definition loud (n : nat) : bytes := repeat "255"%byte n.

(** A payload one byte too long for the 4-byte length prefix, and a
    buffer with exactly one sample per bit of its framing. *)
Definition huge_payload : bytes := repeat "000"%byte (Z.to_nat (2 ^ 32)).

Definition huge_frames : bytes :=
  repeat "000"%byte (Z.to_nat (8 * (4 + 2 ^ 32))).

(** The six bytes ["STEG!!"]: the marker followed by two bytes. *)
Definition short_payload : bytes := bytes_of_string "STEG!!".

(** An upload of the stand-in container whose samples hide [payload]. *)
Definition stego_audio (payload : bytes) : UploadFile :=
  {| filename := Some (str_of_string "voice.wav");
     file := stego_of (loud 1000) payload |}.

(** A well-framed payload for the passcode ["pw"] under the stand-in
    libraries: marker, a salt of sixteen zero bytes, and a token whose
    plaintext is the single byte [0xFF], which is not UTF-8. *)
Definition non_utf8_payload : bytes :=
  MAGIC ++ zeros 16
        ++ (bytes_of_string "pw" ++ zeros 16) ++ zeros 16 ++ ["255"%byte].


(** A file name that [_read_wave] takes for a WAV file: it ends with a
    dot and the letters w, a, v, each in either case. *)
Definition wav_name (name : str) : Prop :=
  exists (stem : str) (c1 c2 c3 : Z),
    name = stem ++ [0x2E; c1; c2; c3] /\
    (c1 = 0x77 \/ c1 = 0x57) /\ (c2 = 0x61 \/ c2 = 0x41) /\
    (c3 = 0x76 \/ c3 = 0x56).

(** The four answers of [extract] to a readable upload that hides
    nothing it can return. *)
Definition extract_details : list string :=
  ["Audio too short"; "Corrupted or incomplete data";
   "No hidden payload found"; "Invalid passcode or payload"]%string.

Example embed_extract_small :
  (out <- _embed_payload (zeros 80) (bytes_of_string "STEG!!") ;;
   _extract_payload out) = Ok (bytes_of_string "STEG!!").
Proof. vm_compute. reflexivity. Qed.

(** ** Bytes and bits: basic facts *)

Lemma byte_to_Z_range (b : byte) : 0 <= byte_to_Z b < 256.
Proof.
  unfold byte_to_Z. pose proof (Byte.to_N_bounded b) as H. lia.
Qed.

Lemma byte_of_to_Z (b : byte) : byte_of_Z (byte_to_Z b) = Some b.
Proof. destruct b; reflexivity. Qed.

Lemma byte_to_of_Z (z : Z) (b : byte) : byte_of_Z z = Some b -> byte_to_Z b = z.
Proof.
  unfold byte_of_Z, byte_to_Z.
  destruct (0 <=? z) eqn:H0; [|discriminate].
  destruct (z <? 256) eqn:H1; [|discriminate]. simpl.
  intros H. apply Byte.to_of_N in H. rewrite H. lia.
Qed.

Lemma byte_to_Z_inj (a b : byte) : byte_to_Z a = byte_to_Z b -> a = b.
Proof.
  intros H. pose proof (byte_of_to_Z a) as Ha. rewrite H, byte_of_to_Z in Ha.
  congruence.
Qed.

Lemma checked_byte_to_Z (b : byte) : checked_byte (byte_to_Z b) = Ok b.
Proof. unfold checked_byte. now rewrite byte_of_to_Z. Qed.

Lemma checked_byte_in_range (z : Z) :
  0 <= z < 256 -> exists b, checked_byte z = Ok b /\ byte_to_Z b = z.
Proof.
  intros Hz. unfold checked_byte.
  destruct (byte_of_Z z) as [b|] eqn:E.
  - exists b. split; [reflexivity | now apply byte_to_of_Z].
  - exfalso. unfold byte_of_Z in E.
    destruct (Z.leb_spec 0 z); [|lia]. destruct (Z.ltb_spec z 256); [|lia].
    simpl in E. destruct (Byte.of_N (Z.to_N z)) eqn:E'; [discriminate|].
    apply Byte.of_N_None_iff in E'. lia.
Qed.

Lemma lsb_is_bit (b : byte) : is_bit (Z.land (byte_to_Z b) 1).
Proof. destruct b; vm_compute; auto. Qed.

Lemma set_lsb_checked (x : byte) (bit : Z) :
  is_bit bit ->
  checked_byte (Z.lor (Z.land (byte_to_Z x) 254) bit) = Ok (set_lsb x bit).
Proof. intros [-> | ->]; destruct x; reflexivity. Qed.

Lemma set_lsb_lsb (x : byte) (bit : Z) :
  is_bit bit -> Z.land (byte_to_Z (set_lsb x bit)) 1 = bit.
Proof. intros [-> | ->]; destruct x; reflexivity. Qed.

Lemma set_lsb_high (x : byte) (bit : Z) :
  is_bit bit ->
  Z.shiftr (byte_to_Z (set_lsb x bit)) 1 = Z.shiftr (byte_to_Z x) 1.
Proof. intros [-> | ->]; destruct x; reflexivity. Qed.

Lemma set_lsb_same (x : byte) :
  set_lsb x (Z.land (byte_to_Z x) 1) = x.
Proof. destruct x; reflexivity. Qed.

Lemma _bytes_to_bits_acc (data : bytes) (acc : list Z) :
  fold_left
    (fun bits byte =>
       fold_left
         (fun bits i => bits ++ [Z.land (Z.shiftr (byte_to_Z byte) i) 1])
         [7; 6; 5; 4; 3; 2; 1; 0] bits)
    data acc = acc ++ flat_map byte_bits data.
Proof.
  revert acc. induction data as [|b data IH]; intros acc.
  - simpl. now rewrite app_nil_r.
  - cbn [fold_left flat_map]. rewrite IH. unfold byte_bits.
    cbn [map]. now rewrite <- !app_assoc.
Qed.

Lemma _bytes_to_bits_flat (data : bytes) :
  _bytes_to_bits data = flat_map byte_bits data.
Proof. apply (_bytes_to_bits_acc data []). Qed.

Lemma _bytes_to_bits_app (a b : bytes) :
  _bytes_to_bits (a ++ b) = _bytes_to_bits a ++ _bytes_to_bits b.
Proof. rewrite !_bytes_to_bits_flat. apply flat_map_app. Qed.

Lemma _bytes_to_bits_length (data : bytes) :
  length (_bytes_to_bits data) = (8 * length data)%nat.
Proof.
  rewrite _bytes_to_bits_flat.
  induction data as [|b data IH]; [reflexivity|].
  cbn [flat_map]. rewrite length_app, IH. unfold byte_bits.
  rewrite length_map. cbn [length]. lia.
Qed.

Lemma byte_bits_is_bit (b : byte) : Forall is_bit (byte_bits b).
Proof.
  destruct b; cbv [byte_bits map];
    repeat (apply Forall_cons; [vm_compute; auto|]); apply Forall_nil.
Qed.

Lemma _bytes_to_bits_is_bit (data : bytes) : Forall is_bit (_bytes_to_bits data).
Proof.
  rewrite _bytes_to_bits_flat.
  induction data as [|b data IH]; cbn [flat_map]; [constructor|].
  apply Forall_app. split; [apply byte_bits_is_bit | exact IH].
Qed.

(** ** [_bits_to_bytes] inverts [_bytes_to_bits] *)

Lemma range_step_8 (n : nat) :
  range_step 0 (8 * n) 8 = map (fun k => (k * 8)%nat) (seq 0 n).
Proof.
  unfold range_step. replace (Nat.div (8 * n - 0 + (8 - 1)) 8) with n.
  - apply map_ext. intros k. lia.
  - apply Nat.div_unique with (r := 7%nat); lia.
Qed.

Lemma byte_bits_length (b : byte) : length (byte_bits b) = 8%nat.
Proof. reflexivity. Qed.

Lemma byte_bits_value (b : byte) :
  fold_left (fun byte x => Z.lor (Z.shiftl byte 1) x) (byte_bits b) 0
  = byte_to_Z b.
Proof. destruct b; reflexivity. Qed.

Lemma flat_byte_bits_length (data : bytes) :
  length (flat_map byte_bits data) = (length data * 8)%nat.
Proof.
  rewrite <- _bytes_to_bits_flat, _bytes_to_bits_length. lia.
Qed.

Lemma chunk_at (pre : bytes) (b : byte) (post : bytes) :
  take 8 (drop (length pre * 8) (flat_map byte_bits (pre ++ b :: post)))
  = byte_bits b.
Proof.
  rewrite flat_map_app. cbn [flat_map].
  rewrite <- flat_byte_bits_length.
  rewrite drop_app_length.
  rewrite <- (byte_bits_length b) at 1.
  apply take_app_length.
Qed.

Lemma pack_loop (all pre data out : bytes) :
  all = pre ++ data ->
  foldM
    (fun out i =>
       let byte :=
         fold_left (fun byte b => Z.lor (Z.shiftl byte 1) b)
                   (take 8 (drop i (flat_map byte_bits all))) 0 in
       b <- checked_byte byte ;;
       Ok (out ++ [b]))
    (map (fun k => (k * 8)%nat) (seq (length pre) (length data))) out
  = Ok (out ++ data).
Proof.
  revert pre out. induction data as [|b data IH]; intros pre out Hall.
  - simpl. now rewrite app_nil_r.
  - cbn [length seq map foldM]. subst all.
    rewrite chunk_at, byte_bits_value, checked_byte_to_Z. cbn [bind].
    specialize (IH (pre ++ [b]) (out ++ [b])).
    rewrite length_app in IH. cbn [length] in IH.
    replace (length pre + 1)%nat with (S (length pre)) in IH by lia.
    rewrite IH.
    + now rewrite <- app_assoc.
    + now rewrite <- app_assoc.
Qed.

Theorem _bits_to_bytes_of_bytes (data : bytes) :
  _bits_to_bytes (_bytes_to_bits data) = Ok data.
Proof.
  unfold _bits_to_bytes, len.
  rewrite _bytes_to_bits_length.
  replace (Z.of_nat (8 * length data) mod 8 =? 0) with true.
  2:{ symmetry. apply Z.eqb_eq. rewrite Nat2Z.inj_mul, Z.mul_comm.
      apply Z_mod_mult. }
  cbn [negb]. rewrite range_step_8, _bytes_to_bits_flat.
  apply (pack_loop data [] data []). reflexivity.
Qed.

Lemma bits_are_bytes (n : nat) (bits : list Z) :
  Forall is_bit bits -> length bits = (8 * n)%nat ->
  exists data : bytes, _bytes_to_bits data = bits.
Proof.
  revert bits. induction n as [|n IH]; intros bits Hb Hl.
  - exists []. destruct bits; [reflexivity | discriminate].
  - destruct bits as [|b7 [|b6 [|b5 [|b4 [|b3 [|b2 [|b1 [|b0 bits]]]]]]]];
      try (simpl in Hl; lia).
    repeat match goal with
           | H : Forall _ (_ :: _) |- _ => inversion H; subst; clear H
           end.
    destruct (IH bits) as [data Hd]; [assumption | simpl in Hl; lia|].
    exists (bits_byte [b7; b6; b5; b4; b3; b2; b1; b0] :: data).
    rewrite _bytes_to_bits_flat in *. cbn [flat_map]. rewrite Hd.
    repeat match goal with
           | H : is_bit _ |- _ => destruct H as [-> | ->]
           end; reflexivity.
Qed.

Theorem _bits_to_bytes_decodes (bits : list Z) :
  Forall is_bit bits -> len bits mod 8 = 0 ->
  exists data : bytes,
    _bits_to_bytes bits = Ok data /\ _bytes_to_bits data = bits.
Proof.
  intros Hb Hl. unfold len in Hl.
  destruct (bits_are_bytes (length bits / 8) bits Hb) as [data Hd].
  - apply Nat2Z.inj. rewrite Nat2Z.inj_mul, Nat2Z.inj_div.
    change (Z.of_nat 8) with 8.
    pose proof (Z.div_mod (Z.of_nat (length bits)) 8). lia.
  - exists data. split; [|exact Hd]. rewrite <- Hd.
    apply _bits_to_bytes_of_bytes.
Qed.

Lemma _bytes_to_bits_inj (a b : bytes) :
  _bytes_to_bits a = _bytes_to_bits b -> a = b.
Proof.
  intros H. pose proof (_bits_to_bytes_of_bytes a) as Ha.
  rewrite H, _bits_to_bytes_of_bytes in Ha. congruence.
Qed.

(** ** [struct]: packing and unpacking agree *)

Lemma struct_pack_I_ok (n : Z) :
  0 <= n < 2 ^ 32 ->
  exists b3 b2 b1 b0 : byte,
    struct_pack_I n = Ok [b3; b2; b1; b0] /\
    struct_unpack_I [b3; b2; b1; b0] = Ok n.
Proof.
  intros Hn. unfold struct_pack_I.
  destruct (Z.leb_spec 0 n) as [_|]; [|lia].
  destruct (Z.ltb_spec n (2 ^ 32)) as [_|]; [|lia].
  cbn [andb].
  destruct (checked_byte_in_range ((n / 2 ^ 24) mod 256)) as (b3 & -> & H3);
    [apply Z.mod_pos_bound; lia|].
  destruct (checked_byte_in_range ((n / 2 ^ 16) mod 256)) as (b2 & -> & H2);
    [apply Z.mod_pos_bound; lia|].
  destruct (checked_byte_in_range ((n / 2 ^ 8) mod 256)) as (b1 & -> & H1);
    [apply Z.mod_pos_bound; lia|].
  destruct (checked_byte_in_range (n mod 256)) as (b0 & -> & H0);
    [apply Z.mod_pos_bound; lia|].
  exists b3, b2, b1, b0. split; [reflexivity|].
  unfold struct_unpack_I. f_equal. rewrite H3, H2, H1, H0.
  change (2 ^ 24) with 16777216 in *. change (2 ^ 16) with 65536 in *.
  change (2 ^ 8) with 256 in *. change (2 ^ 32) with 4294967296 in *.
  Z.div_mod_to_equations. lia.
Qed.

Lemma struct_pack_I_overflow (n : Z) :
  2 ^ 32 <= n ->
  struct_pack_I n
  = Raise (StructError "'I' format requires 0 <= number <= 4294967295").
Proof.
  intros Hn. unfold struct_pack_I.
  destruct (Z.ltb_spec n (2 ^ 32)); [lia|]. now rewrite andb_false_r.
Qed.

Lemma be_int_acc (bits : list Z) (acc : Z) :
  fold_left (fun acc b => 2 * acc + b) bits acc
  = acc * 2 ^ len bits + be_int bits.
Proof.
  unfold be_int, len. revert acc.
  induction bits as [|b bits IH]; intros acc.
  - cbn. lia.
  - cbn [fold_left length]. rewrite IH, (IH (2 * 0 + b)).
    rewrite Nat2Z.inj_succ, Z.pow_succ_r by lia. lia.
Qed.

Lemma be_int_byte (b : byte) (acc : Z) :
  fold_left (fun acc b => 2 * acc + b) (byte_bits b) acc
  = acc * 256 + byte_to_Z b.
Proof.
  rewrite be_int_acc. f_equal. destruct b; reflexivity.
Qed.

Lemma struct_unpack_I_be_int (data : bytes) (n : Z) :
  struct_unpack_I data = Ok n -> n = be_int (_bytes_to_bits data).
Proof.
  destruct data as [|b3 [|b2 [|b1 [|b0 [|? ?]]]]]; try discriminate.
  intros [= <-]. rewrite _bytes_to_bits_flat. unfold be_int.
  cbn [flat_map]. rewrite !fold_left_app, !be_int_byte. cbn [fold_left]. lia.
Qed.

(** ** The embedding loop *)

Lemma embed_loop (bits : list Z) (pre frames : bytes) :
  Forall is_bit bits -> (length bits <= length frames)%nat ->
  foldM
    (fun frame_array '(i, bit) =>
       x <- getitem frame_array i ;;
       y <- checked_byte (Z.lor (Z.land x 254) bit) ;;
       Ok (<[i := y]> frame_array))
    (imap (fun i bit => ((length pre + i)%nat, bit)) bits) (pre ++ frames)
  = Ok (pre ++ embed_bits frames bits).
Proof.
  revert pre frames.
  induction bits as [|bit bits IH]; intros pre frames Hb Hl.
  - reflexivity.
  - destruct frames as [|x frames]; [simpl in Hl; lia|].
    inversion Hb as [|? ? Hbit Hb']; subst.
    cbn [imap foldM embed_bits]. unfold getitem at 1.
    rewrite Nat.add_0_r, list_lookup_middle by reflexivity. cbn [bind].
    rewrite set_lsb_checked by assumption. cbn [bind].
    rewrite insert_app_r_alt, Nat.sub_diag by lia. cbn [insert list_insert].
    specialize (IH (pre ++ [set_lsb x bit]) frames Hb').
    rewrite <- !app_assoc in IH. cbn [app] in IH.
    rewrite <- IH by (simpl in Hl; lia).
    f_equal. apply imap_ext. intros i b _. cbn.
    rewrite length_app. cbn [length]. f_equal. lia.
Qed.

Lemma embed_bits_length (frames : bytes) (bits : list Z) :
  length (embed_bits frames bits) = length frames.
Proof.
  revert frames. induction bits as [|bit bits IH]; intros [|x frames];
    cbn; auto.
Qed.

Lemma embed_bits_lsbs (frames : bytes) (bits : list Z) :
  Forall is_bit bits -> (length bits <= length frames)%nat ->
  lsbs (embed_bits frames bits) = bits ++ drop (length bits) (lsbs frames).
Proof.
  revert frames. induction bits as [|bit bits IH]; intros frames Hb Hl.
  - destruct frames; reflexivity.
  - destruct frames as [|x frames]; [simpl in Hl; lia|].
    inversion Hb; subst. cbn [embed_bits lsbs map length drop app].
    rewrite set_lsb_lsb by assumption. f_equal.
    apply IH; [assumption | simpl in Hl; lia].
Qed.

Lemma embed_bits_beyond (frames : bytes) (bits : list Z) (i : nat) :
  (length bits <= i)%nat -> embed_bits frames bits !! i = frames !! i.
Proof.
  revert frames i. induction bits as [|bit bits IH]; intros frames i Hi.
  - destruct frames; reflexivity.
  - destruct frames as [|x frames]; [reflexivity|].
    destruct i as [|i]; [simpl in Hi; lia|].
    cbn. apply IH. simpl in Hi. lia.
Qed.

Lemma embed_bits_within (frames : bytes) (bits : list Z) (i : nat) (x : byte) :
  Forall is_bit bits -> (i < length bits)%nat -> frames !! i = Some x ->
  exists bit, bits !! i = Some bit /\
              embed_bits frames bits !! i = Some (set_lsb x bit).
Proof.
  revert frames i. induction bits as [|bit bits IH]; intros frames i Hb Hi Hx.
  - simpl in Hi. lia.
  - destruct frames as [|x0 frames]; [discriminate|].
    inversion Hb; subst. destruct i as [|i].
    + injection Hx as <-. exists bit. split; reflexivity.
    + cbn in Hx |- *. apply IH; [assumption | simpl in Hi; lia | assumption].
Qed.

(** ** Reading least-significant bits back *)

Lemma lookup_map {A B} (f : A -> B) (l : list A) (i : nat) :
  map f l !! i = option_map f (l !! i).
Proof.
  revert i. induction l as [|x l IH]; intros [|i]; cbn; auto.
Qed.

Lemma lsbs_length (frames : bytes) : length (lsbs frames) = length frames.
Proof. apply length_map. Qed.

Lemma lsbs_is_bit (frames : bytes) : Forall is_bit (lsbs frames).
Proof.
  induction frames as [|b frames IH]; cbn; constructor;
    [apply lsb_is_bit | exact IH].
Qed.

Lemma read_lsbs (frames : bytes) (n a : nat) :
  (a + n <= length frames)%nat ->
  mapR (fun i => x <- getitem frames i ;; Ok (Z.land x 1)) (seq a n)
  = Ok (take n (drop a (lsbs frames))).
Proof.
  revert a. induction n as [|n IH]; intros a Ha.
  - reflexivity.
  - cbn [seq mapR]. unfold getitem at 1.
    destruct (frames !! a) as [b|] eqn:Eb.
    2:{ apply lookup_ge_None in Eb. lia. }
    cbn [bind]. rewrite IH by lia. cbn [bind].
    rewrite (drop_S (lsbs frames) (Z.land (byte_to_Z b) 1) a).
    + reflexivity.
    + unfold lsbs. now rewrite lookup_map, Eb.
Qed.

Lemma take_is_bit (n : nat) (bits : list Z) :
  Forall is_bit bits -> Forall is_bit (take n bits).
Proof. apply Forall_take. Qed.

Lemma drop_is_bit (n : nat) (bits : list Z) :
  Forall is_bit bits -> Forall is_bit (drop n bits).
Proof. apply Forall_drop. Qed.

Lemma be_int_acc_nonneg (bits : list Z) (acc : Z) :
  0 <= acc -> Forall is_bit bits ->
  0 <= fold_left (fun acc b => 2 * acc + b) bits acc.
Proof.
  revert acc. induction bits as [|b bits IH]; intros acc Hacc Hb; cbn; [lia|].
  inversion Hb as [|? ? [-> | ->] Hb']; subst; apply IH; auto; lia.
Qed.

Lemma be_int_nonneg (bits : list Z) : Forall is_bit bits -> 0 <= be_int bits.
Proof. apply be_int_acc_nonneg. lia. Qed.

Lemma declared_length_nonneg (frames : bytes) : 0 <= declared_length frames.
Proof. apply be_int_nonneg, take_is_bit, lsbs_is_bit. Qed.

Lemma read_length (frames : bytes) :
  (32 <= length frames)%nat ->
  (length_bits <- mapR (fun i => x <- getitem frames i ;; Ok (Z.land x 1))
                       (seq 0 32) ;;
   length_bytes <- _bits_to_bytes length_bits ;;
   struct_unpack_I length_bytes) = Ok (declared_length frames).
Proof.
  intros Hl. rewrite read_lsbs by lia. cbn [bind]. rewrite drop_0.
  destruct (_bits_to_bytes_decodes (take 32 (lsbs frames)))
    as (data & -> & Hd).
  - apply take_is_bit, lsbs_is_bit.
  - unfold len. rewrite length_take, lsbs_length.
    replace (32 `min` length frames)%nat with 32%nat by lia. reflexivity.
  - cbn [bind]. unfold declared_length. rewrite <- Hd.
    assert (Hlen : length data = 4%nat).
    { apply (f_equal (@length Z)) in Hd.
      rewrite _bytes_to_bits_length, length_take, lsbs_length in Hd. lia. }
    destruct data as [|b3 [|b2 [|b1 [|b0 [|? ?]]]]]; try discriminate.
    destruct (struct_unpack_I [b3; b2; b1; b0]) as [n|e] eqn:En;
      [|discriminate].
    f_equal. now apply struct_unpack_I_be_int.
Qed.

(** ** What [_embed_payload] and [_extract_payload] return *)

(** The three outcomes of [_embed_payload]. *)
Lemma _embed_payload_cases (frames payload : bytes) :
  (2 ^ 32 <= len payload /\ _embed_payload frames payload = Raise pack_error)
  \/ (len payload < 2 ^ 32 /\ len frames < 8 * (4 + len payload) /\
      _embed_payload frames payload
      = Raise (HTTPException 400 "Audio too small for payload"))
  \/ (len payload < 2 ^ 32 /\ 8 * (4 + len payload) <= len frames /\
      exists prefix : bytes,
        length prefix = 4%nat /\
        struct_unpack_I prefix = Ok (len payload) /\
        _embed_payload frames payload
        = Ok (embed_bits frames (_bytes_to_bits (prefix ++ payload)))).
Proof.
  unfold _embed_payload.
  destruct (Z_lt_le_dec (len payload) (2 ^ 32)) as [Hlt | Hge].
  2:{ left. split; [exact Hge|]. now rewrite struct_pack_I_overflow. }
  right.
  destruct (struct_pack_I_ok (len payload)) as (b3 & b2 & b1 & b0 & -> & Hu).
  { unfold len in *. split; [lia | exact Hlt]. }
  cbn [bind].
  assert (Hbits : len (_bytes_to_bits ([b3; b2; b1; b0] ++ payload))
                  = 8 * (4 + len payload)).
  { unfold len. rewrite _bytes_to_bits_length, length_app. cbn [length]. lia. }
  rewrite Hbits.
  destruct (Z.gtb_spec (8 * (4 + len payload)) (len frames)) as [Hgt | Hle].
  - left. repeat split; [exact Hlt | lia].
  - right. repeat split; [exact Hlt | exact Hle |].
    exists [b3; b2; b1; b0]. repeat split; [exact Hu|].
    pose proof (embed_loop (_bytes_to_bits ([b3; b2; b1; b0] ++ payload))
                  [] frames) as Hloop.
    cbn [app length Nat.add] in Hloop. apply Hloop.
    + apply _bytes_to_bits_is_bit.
    + cbn [app] in Hbits. unfold len in *. lia.
Qed.

(** The three outcomes of [_extract_payload]. *)
Lemma _extract_payload_cases (frames : bytes) :
  (len frames < 32 /\
   _extract_payload frames = Raise (HTTPException 400 "Audio too short"))
  \/ (32 <= len frames /\ len frames < 32 + 8 * declared_length frames /\
      _extract_payload frames
      = Raise (HTTPException 400 "Corrupted or incomplete data"))
  \/ (32 <= len frames /\ 32 + 8 * declared_length frames <= len frames /\
      exists payload : bytes,
        _extract_payload frames = Ok payload /\
        len payload = declared_length frames /\
        _bytes_to_bits payload
        = take (Z.to_nat (8 * declared_length frames)) (drop 32 (lsbs frames))).
Proof.
  unfold _extract_payload.
  destruct (Z.ltb_spec (len frames) 32) as [Hshort | Hlong].
  { left. split; [exact Hshort | reflexivity]. }
  right.
  pose proof (read_length frames) as Hread.
  pose proof (declared_length_nonneg frames) as HL.
  set (L := declared_length frames) in *.
  destruct (mapR _ (seq 0 32)) as [length_bits|e];
    [|cbn in Hread; unfold len in *; specialize (Hread ltac:(lia));
      discriminate].
  cbn [bind] in Hread |- *.
  destruct (_bits_to_bytes length_bits) as [length_bytes|e];
    [|cbn in Hread; unfold len in *; specialize (Hread ltac:(lia));
      discriminate].
  cbn [bind] in Hread |- *.
  rewrite Hread by (unfold len in *; lia). cbn [bind].
  destruct (Z.gtb_spec (32 + L * 8) (len frames)) as [Hgt | Hle].
  - left. repeat split; [exact Hlong | lia].
  - right. repeat split; [exact Hlong | lia |].
    rewrite read_lsbs by (unfold len in *; lia). cbn [bind].
    replace (L * 8) with (8 * L) by lia.
    destruct (_bits_to_bytes_decodes
                (take (Z.to_nat (8 * L)) (drop 32 (lsbs frames))))
      as (payload & Hp & Hd).
    + apply take_is_bit, drop_is_bit, lsbs_is_bit.
    + unfold len in *. rewrite length_take, length_drop, lsbs_length.
      replace (Z.of_nat (Z.to_nat (8 * L) `min` (length frames - 32)))
        with (L * 8) by lia.
      apply Z_mod_mult.
    + exists payload. repeat split; [exact Hp | | exact Hd].
      apply (f_equal (@length Z)) in Hd.
      rewrite _bytes_to_bits_length, length_take, length_drop, lsbs_length
        in Hd. unfold len in *. lia.
Qed.

Lemma be_int_zeros (bits : list Z) :
  Forall (fun bit => bit = 0) bits -> be_int bits = 0.
Proof.
  unfold be_int. induction 1 as [|b bits -> _ IH]; [reflexivity | exact IH].
Qed.

(** Samples whose least-significant bits are all zero declare the empty
    payload. *)
Lemma extract_zero_lsbs (frames : bytes) :
  32 <= len frames -> Forall (fun bit => bit = 0) (lsbs frames) ->
  _extract_payload frames = Ok [].
Proof.
  intros Hl Hz.
  assert (HL : declared_length frames = 0)
    by (apply be_int_zeros, Forall_take, Hz).
  destruct (_extract_payload_cases frames)
    as [[Hs _] | [(_ & Hc & _) | (_ & _ & payload & -> & Hlen & _)]];
    [lia | lia |].
  rewrite HL in Hlen. destruct payload; [reflexivity | discriminate].
Qed.

(** ** The codec: locality, round trip, capacity *)

Lemma framed_bits_length (prefix payload : bytes) :
  length prefix = 4%nat ->
  len (_bytes_to_bits (prefix ++ payload)) = 8 * (4 + len payload).
Proof.
  intros Hp. unfold len. rewrite _bytes_to_bits_length, length_app, Hp. lia.
Qed.

Lemma testbit_above_lsb (x y : Z) :
  Z.shiftr y 1 = Z.shiftr x 1 ->
  forall k, 1 <= k -> Z.testbit y k = Z.testbit x k.
Proof.
  intros H k Hk. replace k with (k - 1 + 1) by lia.
  rewrite <- !Z.shiftr_spec by lia. now rewrite H.
Qed.

(** C2.  Whenever [_embed_payload] accepts its arguments, the result has
    the length of the input, every sample from index
    [8 * (4 + len payload)] on is the input sample, and every sample
    before it agrees with the input sample on all bits above the
    least-significant one. *)
Theorem embed_payload_bit_locality (frames payload out : bytes) :
  _embed_payload frames payload = Ok out ->
  length out = length frames /\
  (forall i : nat,
     8 * (4 + len payload) <= Z.of_nat i -> out !! i = frames !! i) /\
  (forall i : nat,
     Z.of_nat i < 8 * (4 + len payload) ->
     exists x y : byte,
       frames !! i = Some x /\ out !! i = Some y /\
       forall k, 1 <= k ->
                 Z.testbit (byte_to_Z y) k = Z.testbit (byte_to_Z x) k).
Proof.
  intros Hout.
  destruct (_embed_payload_cases frames payload)
    as [[_ H] | [(_ & _ & H) | (Hlt & Hcap & prefix & Hp & _ & H)]];
    rewrite H in Hout; try discriminate.
  injection Hout as <-.
  pose proof (framed_bits_length prefix payload Hp) as Hbits.
  pose proof (_bytes_to_bits_is_bit (prefix ++ payload)) as Hbit.
  set (bits := _bytes_to_bits (prefix ++ payload)) in *.
  unfold len in *. split; [apply embed_bits_length|]. split.
  - intros i Hi. apply embed_bits_beyond. lia.
  - intros i Hi.
    destruct (frames !! i) as [x|] eqn:Ex.
    2:{ apply lookup_ge_None in Ex. lia. }
    destruct (embed_bits_within frames bits i x Hbit) as (bit & Hb & Hy);
      [lia | exact Ex|].
    exists x, (set_lsb x bit). repeat split; [exact Hy|].
    apply testbit_above_lsb, set_lsb_high.
    eapply Forall_lookup_1 in Hbit; eauto.
Qed.

Lemma embed_payload_bit_locality_witness :
  _embed_payload (loud 40) [] = Ok (stego_of (loud 40) []) /\
  length (stego_of (loud 40) []) = length (loud 40).
Proof.
  split; [vm_compute; reflexivity|].
  apply (embed_payload_bit_locality (loud 40) [] (stego_of (loud 40) [])).
  vm_compute. reflexivity.
Defined.

Lemma declared_length_embed (frames prefix payload : bytes) :
  length prefix = 4%nat ->
  struct_unpack_I prefix = Ok (len payload) ->
  8 * (4 + len payload) <= len frames ->
  declared_length (embed_bits frames (_bytes_to_bits (prefix ++ payload)))
  = len payload.
Proof.
  intros Hp Hu Hcap. unfold declared_length.
  pose proof (framed_bits_length prefix payload Hp) as Hbits.
  rewrite embed_bits_lsbs;
    [|apply _bytes_to_bits_is_bit | unfold len in *; lia].
  rewrite _bytes_to_bits_app, <- app_assoc.
  replace 32%nat with (length (_bytes_to_bits prefix))
    by (rewrite _bytes_to_bits_length; lia).
  rewrite take_app_length. symmetry. now apply struct_unpack_I_be_int.
Qed.

Lemma payload_bits_embed (frames prefix payload : bytes) :
  length prefix = 4%nat ->
  8 * (4 + len payload) <= len frames ->
  take (Z.to_nat (8 * len payload))
       (drop 32 (lsbs (embed_bits frames (_bytes_to_bits (prefix ++ payload)))))
  = _bytes_to_bits payload.
Proof.
  intros Hp Hcap.
  pose proof (framed_bits_length prefix payload Hp) as Hbits.
  rewrite embed_bits_lsbs;
    [|apply _bytes_to_bits_is_bit | unfold len in *; lia].
  rewrite _bytes_to_bits_app, <- app_assoc.
  replace 32%nat with (length (_bytes_to_bits prefix))
    by (rewrite _bytes_to_bits_length; lia).
  rewrite drop_app_length.
  replace (Z.to_nat (8 * len payload))
    with (length (_bytes_to_bits payload))
    by (rewrite _bytes_to_bits_length; unfold len; lia).
  apply take_app_length.
Qed.

Lemma _embed_payload_length (frames payload out : bytes) :
  _embed_payload frames payload = Ok out -> length out = length frames.
Proof.
  intros Hout.
  destruct (_embed_payload_cases frames payload)
    as [[_ H] | [(_ & _ & H) | (_ & _ & prefix & _ & _ & H)]];
    rewrite H in Hout; try discriminate.
  injection Hout as <-. apply embed_bits_length.
Qed.

(** Embedding then extracting, for a payload the length prefix can
    describe and a buffer that can hold it. *)
Lemma embed_then_extract (frames payload : bytes) :
  len payload < 2 ^ 32 ->
  8 * (4 + len payload) <= len frames ->
  exists out : bytes,
    _embed_payload frames payload = Ok out /\
    _extract_payload out = Ok payload.
Proof.
  intros Hlt Hcap.
  destruct (_embed_payload_cases frames payload)
    as [[Hge _] | [(_ & Hsmall & _) | (_ & _ & prefix & Hp & Hu & H)]];
    [lia | lia |].
  eexists. split; [exact H|].
  pose proof (declared_length_embed frames prefix payload Hp Hu Hcap) as HL.
  pose proof (payload_bits_embed frames prefix payload Hp Hcap) as Hbits.
  set (out := embed_bits frames (_bytes_to_bits (prefix ++ payload))) in *.
  assert (Hlen : len out = len frames)
    by (unfold len, out; now rewrite embed_bits_length).
  assert (0 <= len payload) by (unfold len; lia).
  destruct (_extract_payload_cases out)
    as [[Hs _] | [(_ & Hc & _) | (_ & _ & payload' & Hp' & _ & Hd)]];
    [lia | lia |].
  rewrite Hp'. f_equal. apply _bytes_to_bits_inj.
  rewrite Hd, HL. exact Hbits.
Qed.

(** C3, amended.  For every payload shorter than [2 ^ 32] bytes and
    every buffer of at least [8 * (4 + len payload)] samples,
    [_embed_payload] returns a buffer from which [_extract_payload]
    returns the payload. *)
Theorem codec_round_trip (frames payload : bytes) :
  len payload < 2 ^ 32 ->
  8 * (4 + len payload) <= len frames ->
  exists out : bytes,
    _embed_payload frames payload = Ok out /\
    _extract_payload out = Ok payload.
Proof. apply embed_then_extract. Qed.

Lemma codec_round_trip_witness :
  exists out : bytes,
    _embed_payload (loud 80) (bytes_of_string "STEG!!") = Ok out /\
    _extract_payload out = Ok (bytes_of_string "STEG!!").
Proof.
  apply (codec_round_trip (loud 80) (bytes_of_string "STEG!!"));
    [vm_compute; reflexivity | vm_compute; discriminate].
Defined.

Lemma len_huge_payload : len huge_payload = 4294967296.
Proof.
  unfold len, huge_payload. rewrite repeat_length.
  change (2 ^ 32) with 4294967296. apply Z2Nat.id. lia.
Qed.

Lemma len_huge_frames : len huge_frames = 34359738400.
Proof.
  unfold len, huge_frames. rewrite repeat_length.
  change (8 * (4 + 2 ^ 32)) with 34359738400. apply Z2Nat.id. lia.
Qed.

Lemma embed_huge_payload (frames : bytes) :
  _embed_payload frames huge_payload = Raise pack_error.
Proof.
  destruct (_embed_payload_cases frames huge_payload)
    as [[_ H] | [(Hlt & _) | (Hlt & _)]]; [exact H | exfalso | exfalso];
    rewrite len_huge_payload in Hlt; change (2 ^ 32) with 4294967296 in Hlt;
    lia.
Qed.

(** C3 as stated fails: a payload of [2 ^ 32] bytes does not fit the
    4-byte length prefix, and [_embed_payload] raises [struct.error]
    however large the buffer is. *)
Lemma codec_round_trip_counterexample :
  8 * (4 + len huge_payload) <= len huge_frames /\
  _embed_payload huge_frames huge_payload = Raise pack_error /\
  ~ exists out : bytes,
      _embed_payload huge_frames huge_payload = Ok out /\
      _extract_payload out = Ok huge_payload.
Proof.
  split; [rewrite len_huge_payload, len_huge_frames; lia|].
  split; [apply embed_huge_payload|].
  intros (out & H & _). rewrite embed_huge_payload in H. discriminate.
Qed.

(** C5, amended.  For a payload shorter than [2 ^ 32] bytes:
    [_embed_payload] succeeds when the bit count [8 * (4 + len payload)]
    equals the number of samples, it succeeds exactly when the bit count
    does not exceed it, and it raises "Audio too small for payload", a
    CapacityError, exactly when the bit count exceeds it. *)
Theorem embed_capacity_boundary (frames payload : bytes) :
  len payload < 2 ^ 32 ->
  (8 * (4 + len payload) = len frames ->
   exists out : bytes, _embed_payload frames payload = Ok out) /\
  ((exists out : bytes, _embed_payload frames payload = Ok out) <->
   8 * (4 + len payload) <= len frames) /\
  (_embed_payload frames payload
   = Raise (HTTPException 400 "Audio too small for payload") <->
   len frames < 8 * (4 + len payload)) /\
  error_kind (HTTPException 400 "Audio too small for payload")
  = Some CapacityError.
Proof.
  intros Hlt.
  destruct (_embed_payload_cases frames payload)
    as [[Hge _] | [(_ & Hsmall & H) | (_ & Hcap & prefix & _ & _ & H)]];
    [lia | |]; rewrite H.
  - repeat split; try lia; try reflexivity; intros; try lia.
    destruct H0 as [out Hout]. discriminate.
  - repeat split; try lia; try reflexivity; intros; try discriminate;
      eauto.
Qed.

Lemma embed_capacity_boundary_witness :
  (exists out : bytes, _embed_payload (loud 32) [] = Ok out) /\
  _embed_payload (loud 31) []
  = Raise (HTTPException 400 "Audio too small for payload").
Proof.
  destruct (embed_capacity_boundary (loud 32) [])
    as (Heq & _); [vm_compute; reflexivity|].
  destruct (embed_capacity_boundary (loud 31) [])
    as (_ & _ & Hsmall & _); [vm_compute; reflexivity|].
  split; [apply Heq; vm_compute; reflexivity|].
  apply Hsmall. vm_compute. reflexivity.
Defined.

(** C5 as stated fails for a payload of [2 ^ 32] bytes: with exactly one
    sample per bit the call does not succeed, and with too few samples
    the failure is [struct.error], not the capacity error. *)
Lemma embed_capacity_counterexample :
  (8 * (4 + len huge_payload) = len huge_frames /\
   _embed_payload huge_frames huge_payload = Raise pack_error) /\
  (len (@nil byte) < 8 * (4 + len huge_payload) /\
   _embed_payload [] huge_payload = Raise pack_error /\
   error_kind pack_error = None).
Proof.
  split; [split|split; [|split]].
  - rewrite len_huge_payload, len_huge_frames. reflexivity.
  - apply embed_huge_payload.
  - rewrite len_huge_payload. reflexivity.
  - apply embed_huge_payload.
  - reflexivity.
Qed.

(** ** [_extract_payload] against the specification's wording *)

Lemma to_byte_to_Z (b : byte) : to_byte (byte_to_Z b) = b.
Proof. unfold to_byte. now rewrite byte_of_to_Z. Qed.

Lemma bits_to_bytes_spec_of_bytes (data : bytes) :
  bits_to_bytes_spec (_bytes_to_bits data) = data.
Proof.
  rewrite _bytes_to_bits_flat.
  induction data as [|b data IH]; [reflexivity|].
  cbn [flat_map]. unfold byte_bits at 1. cbn [map app bits_to_bytes_spec].
  rewrite IH. f_equal.
  change (to_byte (be_int (byte_bits b)) = b).
  unfold be_int. rewrite be_int_byte. apply to_byte_to_Z.
Qed.

(** C4.  [_extract_payload] is the function the specification describes:
    "Audio too short" (a CapacityError) under 32 samples; otherwise, with
    [L] the big-endian integer spelled by the first 32 least-significant
    bits, "Corrupted or incomplete data" (a CorruptionError) when
    [32 + 8 * L] exceeds the number of samples, and otherwise the [L]
    bytes spelled by the next [8 * L] least-significant bits, returned
    as they are. *)
Theorem extract_payload_meets_spec (frames : bytes) :
  _extract_payload frames = extract_payload_spec frames /\
  (forall payload : bytes,
     _extract_payload frames = Ok payload ->
     len payload = declared_length frames /\
     _bytes_to_bits payload
     = take (Z.to_nat (8 * declared_length frames)) (drop 32 (lsbs frames)))
  /\ error_kind (HTTPException 400 "Audio too short") = Some CapacityError
  /\ error_kind (HTTPException 400 "Corrupted or incomplete data")
     = Some CorruptionError.
Proof.
  split; [|split; [|split; reflexivity]].
  - unfold extract_payload_spec.
    destruct (_extract_payload_cases frames)
      as [[Hs H] | [(Hl & Hc & H) | (Hl & Hc & payload' & H & Hlen & Hd)]];
      rewrite H.
    + destruct (Z.ltb_spec (len frames) 32); [reflexivity | lia].
    + destruct (Z.ltb_spec (len frames) 32); [lia|]. cbv zeta.
      destruct (Z.ltb_spec (len frames) (32 + 8 * declared_length frames));
        [reflexivity | lia].
    + destruct (Z.ltb_spec (len frames) 32); [lia|]. cbv zeta.
      destruct (Z.ltb_spec (len frames) (32 + 8 * declared_length frames));
        [lia|].
      rewrite <- Hd. now rewrite bits_to_bytes_spec_of_bytes.
  - intros payload Hp.
    destruct (_extract_payload_cases frames)
      as [[Hs H] | [(Hl & Hc & H) | (Hl & Hc & payload' & H & Hlen & Hd)]];
      rewrite H in Hp; try discriminate.
    injection Hp as <-. split; assumption.
Qed.

Lemma extract_payload_meets_spec_witness :
  _extract_payload (stego_of (loud 80) (bytes_of_string "STEG!!"))
  = Ok (bytes_of_string "STEG!!") /\
  len (bytes_of_string "STEG!!")
  = declared_length (stego_of (loud 80) (bytes_of_string "STEG!!")).
Proof.
  split; [vm_compute; reflexivity|].
  apply (extract_payload_meets_spec
           (stego_of (loud 80) (bytes_of_string "STEG!!"))).
  vm_compute. reflexivity.
Defined.

(** ** Text: stripping and UTF-8 *)

Lemma lstrip_blank (s : str) :
  Forall (fun c => isspace c = true) s -> lstrip s = [].
Proof.
  induction 1 as [|c s Hc _ IH]; [reflexivity|].
  cbn [lstrip]. now rewrite Hc.
Qed.

Lemma strip_blank (s : str) :
  Forall (fun c => isspace c = true) s -> strip s = [].
Proof.
  intros H. unfold strip, rstrip. now rewrite (lstrip_blank s H).
Qed.

Lemma lstrip_nil_blank (s : str) :
  lstrip s = [] -> Forall (fun c => isspace c = true) s.
Proof.
  induction s as [|c s IH]; intros H; [constructor|].
  cbn [lstrip] in H. destruct (isspace c) eqn:Ec; [|discriminate].
  constructor; auto.
Qed.

Lemma lstrip_head (s : str) :
  match lstrip s with [] => True | c :: _ => isspace c = false end.
Proof.
  induction s as [|c s IH]; [exact I|].
  cbn [lstrip]. destruct (isspace c) eqn:Ec; [exact IH | exact Ec].
Qed.

Lemma lstrip_suffix (s : str) : exists blank : str,
  Forall (fun c => isspace c = true) blank /\ s = blank ++ lstrip s.
Proof.
  induction s as [|c s (blank & Hb & IH)]; [exists []; split; auto|].
  cbn [lstrip]. destruct (isspace c) eqn:Ec.
  - exists (c :: blank). split; [constructor; auto|]. cbn. now f_equal.
  - exists []. split; auto.
Qed.

(** [strip] leaves nothing exactly when every character is whitespace. *)
Lemma strip_nil_iff (s : str) :
  strip s = [] <-> Forall (fun c => isspace c = true) s.
Proof.
  split; [|apply strip_blank].
  unfold strip, rstrip. intros H.
  destruct (lstrip_suffix s) as (blank & Hb & Hs).
  pose proof (lstrip_head s) as Hh.
  destruct (lstrip s) as [|c rest] eqn:El.
  - now apply lstrip_nil_blank.
  - exfalso. apply (f_equal (@rev Z)) in H. rewrite rev_involutive in H.
    cbn [rev] in H. apply lstrip_nil_blank in H.
    apply Forall_app in H as [_ H]. inversion H; congruence.
Qed.

(** ** Key derivation, framing and the error paths of the endpoints *)

Section Endpoints.
Context {E : Externals}.

(** The marker test of [unframe], as a statement about the payload. *)
Lemma startswith_MAGIC (payload : bytes) :
  startswith payload MAGIC = true <-> exists rest, payload = MAGIC ++ rest.
Proof.
  unfold startswith. rewrite bool_decide_eq_true. split.
  - intros H. exists (drop (length MAGIC) payload).
    rewrite <- H at 1. now rewrite take_drop.
  - intros (rest & ->). now rewrite take_app_length.
Qed.

(** C8, amended.  [unframe] raises "No hidden payload found", a
    FormatError, exactly when the payload does not start with the
    marker, and raises nothing else; a buffer of at least 32 samples
    whose least-significant bits are all zero holds the empty payload
    and is refused that way.  When the payload starts with the marker,
    the salt is the bytes at positions 4 to 19 that exist, the token is
    everything from position 20 on, and the payload is marker, salt and
    token in this order; the salt has 16 bytes when the payload has at
    least 20. *)
Theorem unframe_spec (payload : bytes) :
  (unframe payload = Raise (HTTPException 400 "No hidden payload found")
   <-> ~ exists rest, payload = MAGIC ++ rest) /\
  (forall e, unframe payload = Raise e ->
             e = HTTPException 400 "No hidden payload found") /\
  error_kind (HTTPException 400 "No hidden payload found") = Some FormatError
  /\ (forall (audio : UploadFile) (params : wave_params) (frames : bytes)
             (passcode : str),
        _read_wave audio = Ok (params, frames) ->
        32 <= len frames -> Forall (fun bit => bit = 0) (lsbs frames) ->
        _extract_payload frames = Ok [] /\
        extract audio passcode
        = Raise (HTTPException 400 "No hidden payload found"))
  /\ (forall salt token : bytes,
        unframe payload = Ok (salt, token) ->
        payload = MAGIC ++ salt ++ token /\
        salt = take 16 (drop 4 payload) /\
        token = drop 20 payload /\
        (20 <= len payload -> length salt = 16%nat)).
Proof.
  unfold unframe.
  pose proof (startswith_MAGIC payload) as Hs.
  destruct (startswith payload MAGIC) eqn:Es; cbn [negb].
  - destruct Hs as [Hs _]. specialize (Hs eq_refl).
    split; [split; [discriminate | intros Hn; contradiction]|].
    split; [discriminate|]. split; [reflexivity|]. split.
    + intros audio params frames passcode Hr Hl Hz.
      pose proof (extract_zero_lsbs frames Hl Hz) as Hx.
      split; [exact Hx|]. unfold extract. now rewrite Hr; cbn; rewrite Hx.
    + intros salt token [= <- <-]. destruct Hs as (rest & ->).
      change (length MAGIC) with 4%nat. change (len MAGIC) with 4.
      unfold slice, SALT_LEN.
      change (Z.to_nat (4 + 16 - 4)) with 16%nat.
      change (Z.to_nat 4) with 4%nat. change (Z.to_nat 16) with 16%nat.
      change (4 + 16)%nat with 20%nat.
      change (drop 4 (MAGIC ++ rest)) with rest.
      change (drop 20 (MAGIC ++ rest)) with (drop 16 rest).
      rewrite take_drop. repeat split.
      intros Hl. rewrite length_take. unfold len in Hl.
      rewrite length_app in Hl. change (length MAGIC) with 4%nat in Hl. lia.
  - split; [split; [intros _ Hr; apply Hs in Hr; discriminate | reflexivity]|].
    split; [intros e [= <-]; reflexivity|]. split; [reflexivity|]. split.
    + intros audio params frames passcode Hr Hl Hz.
      pose proof (extract_zero_lsbs frames Hl Hz) as Hx.
      split; [exact Hx|]. unfold extract. now rewrite Hr; cbn; rewrite Hx.
    + discriminate.
Qed.

(** C8 as stated fails: the six-byte payload ["STEG!!"] starts with the
    marker, and its salt is the two bytes that follow, not sixteen. *)
Lemma unframe_counterexample :
  _extract_payload (stego_of (loud 1000) short_payload) = Ok short_payload /\
  (exists rest, short_payload = MAGIC ++ rest) /\
  unframe short_payload = Ok (bytes_of_string "!!", []) /\
  length (bytes_of_string "!!") <> 16%nat.
Proof.
  split; [vm_compute; reflexivity|].
  split; [exists (bytes_of_string "!!"); reflexivity|].
  split; [reflexivity | discriminate].
Qed.

(** C9.  A message made of whitespace only, the empty one included, is
    refused with "Message is required", an InvalidInput, whatever the
    upload, the passcode and the libraries are; the world is left as it
    was, so no salt has been drawn and no key derived. *)
Theorem embed_rejects_blank_message
  (audio : UploadFile) (message passcode : str) (w : World) :
  Forall (fun c => isspace c = true) message ->
  embed audio message passcode w
  = (Raise (HTTPException 400 "Message is required"), w) /\
  error_kind (HTTPException 400 "Message is required") = Some InvalidInput.
Proof.
  intros Hb. split; [|reflexivity].
  unfold embed. now rewrite (strip_blank message Hb).
Qed.

(** C10.  With the empty passcode and a payload that starts with the
    marker, [derive_key] raises [ValueError]; the handler of [extract]
    turns it into "Invalid passcode or payload", an
    AuthenticationError. *)
Theorem extract_empty_passcode
  (audio : UploadFile) (params : wave_params) (frames payload : bytes) :
  _read_wave audio = Ok (params, frames) ->
  _extract_payload frames = Ok payload ->
  startswith payload MAGIC = true ->
  (forall salt, derive_key [] salt = Raise (ValueError "Passcode is required"))
  /\ error_kind (ValueError "Passcode is required") = Some InvalidInput
  /\ extract audio [] = Raise (HTTPException 400 "Invalid passcode or payload")
  /\ error_kind (HTTPException 400 "Invalid passcode or payload")
     = Some AuthenticationError.
Proof.
  intros Hr Hx Hs. split; [reflexivity|]. split; [reflexivity|].
  split; [|reflexivity].
  unfold extract. rewrite Hr. cbn [bind]. rewrite Hx. cbn [bind].
  unfold unframe. rewrite Hs. reflexivity.
Qed.

(** C6, amended.  When decryption succeeds and the plaintext is not
    valid UTF-8, the [UnicodeDecodeError] is a [ValueError], the handler
    of [extract] catches it, and the caller sees "Invalid passcode or
    payload", an AuthenticationError. *)
Theorem extract_non_utf8_plaintext
  (audio : UploadFile) (params : wave_params) (passcode : str)
  (frames payload salt token key plaintext : bytes) :
  _read_wave audio = Ok (params, frames) ->
  _extract_payload frames = Ok payload ->
  unframe payload = Ok (salt, token) ->
  derive_key passcode salt = Ok key ->
  Fernet key = Ok key ->
  Fernet_decrypt key token = Ok plaintext ->
  bytes_decode plaintext = Raise UnicodeDecodeError ->
  extract audio passcode
  = Raise (HTTPException 400 "Invalid passcode or payload") /\
  error_kind (HTTPException 400 "Invalid passcode or payload")
  = Some AuthenticationError.
Proof.
  intros Hr Hx Hu Hk Hf Hd Hp. split; [|reflexivity].
  unfold extract. rewrite Hr. cbn [bind]. rewrite Hx. cbn [bind].
  rewrite Hu. cbn [bind]. unfold decrypt_message.
  rewrite Hk. cbn [bind]. rewrite Hf. cbn [bind]. rewrite Hd. cbn [bind].
  rewrite Hp. reflexivity.
Qed.
End Endpoints.

Lemma unframe_spec_witness :
  (unframe (MAGIC ++ zeros 16 ++ bytes_of_string "token")
   = Ok (zeros 16, bytes_of_string "token") /\
   length (zeros 16) = 16%nat) /\
  extract (sample_audio 2000) (str_of_string "secret123")
  = Raise (HTTPException 400 "No hidden payload found").
Proof.
  destruct (unframe_spec (E := plain_externals)
              (MAGIC ++ zeros 16 ++ bytes_of_string "token"))
    as (_ & _ & _ & Hzero & H).
  split.
  - split; [reflexivity|].
    destruct (H (zeros 16) (bytes_of_string "token")) as (_ & _ & _ & Hlen);
      [reflexivity|].
    apply Hlen. vm_compute. discriminate.
  - apply (Hzero (sample_audio 2000) tt (zeros 2000)).
    + reflexivity.
    + vm_compute. discriminate.
    + apply Forall_forall. intros bit Hbit. unfold lsbs, zeros in Hbit.
      apply in_map_iff in Hbit as (b & <- & Hb).
      apply repeat_spec in Hb. subst b. reflexivity.
Defined.

Lemma extract_empty_passcode_witness :
  extract (stego_audio short_payload) []
  = Raise (HTTPException 400 "Invalid passcode or payload").
Proof.
  apply (extract_empty_passcode (E := plain_externals)
           (stego_audio short_payload) tt
           (stego_of (loud 1000) short_payload) short_payload);
    vm_compute; reflexivity.
Defined.

Lemma embed_rejects_blank_message_witness :
  embed (sample_audio 2000) (str_of_string "  ") (str_of_string "secret123")
        sample_world
  = (Raise (HTTPException 400 "Message is required"), sample_world).
Proof.
  apply (embed_rejects_blank_message (sample_audio 2000)
           (str_of_string "  ") (str_of_string "secret123") sample_world).
  repeat constructor.
Defined.

Lemma extract_non_utf8_plaintext_witness :
  extract (stego_audio non_utf8_payload) (str_of_string "pw")
  = Raise (HTTPException 400 "Invalid passcode or payload").
Proof.
  apply (extract_non_utf8_plaintext (E := plain_externals)
           (stego_audio non_utf8_payload) tt
           (str_of_string "pw") (stego_of (loud 1000) non_utf8_payload)
           non_utf8_payload (zeros 16)
           ((bytes_of_string "pw" ++ zeros 16) ++ zeros 16 ++ ["255"%byte])
           (bytes_of_string "pw" ++ zeros 16) ["255"%byte]);
    vm_compute; reflexivity.
Defined.

(** C6 as stated fails: the stand-in token below decrypts, under the
    passcode ["pw"], to the single byte [0xFF]; [extract] answers
    "Invalid passcode or payload", whose kind is AuthenticationError and
    not FormatError. *)
Lemma extract_non_utf8_counterexample :
  decrypt_message (str_of_string "pw") (zeros 16)
    ((bytes_of_string "pw" ++ zeros 16) ++ zeros 16 ++ ["255"%byte])
  = Raise UnicodeDecodeError /\
  Fernet_decrypt (bytes_of_string "pw" ++ zeros 16)
    ((bytes_of_string "pw" ++ zeros 16) ++ zeros 16 ++ ["255"%byte])
  = Ok ["255"%byte] /\
  extract (stego_audio non_utf8_payload) (str_of_string "pw")
  = Raise (HTTPException 400 "Invalid passcode or payload") /\
  error_kind (HTTPException 400 "Invalid passcode or payload")
  <> Some FormatError.
Proof.
  repeat split; try (vm_compute; reflexivity). discriminate.
Qed.

(** ** The endpoints, end to end *)

Lemma byte_to_Z_to_byte (z : Z) : 0 <= z < 256 -> byte_to_Z (to_byte z) = z.
Proof.
  intros Hz. destruct (checked_byte_in_range z Hz) as (b & Hb & Hz').
  unfold to_byte. unfold checked_byte in Hb.
  destruct (byte_of_Z z); [|discriminate]. injection Hb as ->. exact Hz'.
Qed.

Ltac zdm := Z.div_mod_to_equations; lia.

Ltac decide_if :=
  match goal with
  | |- context [?a <? ?b] =>
      destruct (Z.ltb_spec a b); [try (exfalso; zdm) | try (exfalso; zdm)]
  | |- context [?a <=? ?b] =>
      destruct (Z.leb_spec a b); [try (exfalso; zdm) | try (exfalso; zdm)]
  end.

Lemma decode_encode_char (c : Z) (rest : bytes) :
  is_code_point c && negb (is_surrogate c) = true ->
  exists bs : bytes,
    utf8_encode_char c = Ok bs /\
    bytes_decode (bs ++ rest) = (s <- bytes_decode rest ;; Ok (c :: s)).
Proof.
  intros H. unfold utf8_encode_char.
  apply andb_true_iff in H as [Hcp Hs]. rewrite Hcp.
  apply negb_true_iff in Hs. rewrite Hs. cbn [negb orb].
  apply andb_true_iff in Hcp as [H0 H1].
  apply Z.leb_le in H0. apply Z.ltb_lt in H1.
  assert (Hsur : c < 0xD800 \/ 0xDFFF < c).
  { unfold is_surrogate in Hs. apply andb_false_iff in Hs as [Hs | Hs];
      [apply Z.leb_gt in Hs | apply Z.leb_gt in Hs]; lia. }
  clear Hs.
  destruct (Z.ltb_spec c 0x80); [|destruct (Z.ltb_spec c 0x800);
    [|destruct (Z.ltb_spec c 0x10000)]];
    (eexists; split; [reflexivity|]); cbn [app bytes_decode];
    rewrite !byte_to_Z_to_byte by zdm.
  - repeat decide_if. reflexivity.
  - repeat decide_if. unfold is_cont. repeat decide_if. cbn [andb].
    f_equal.
    match goal with
    | |- (fun s => Ok (?e :: s)) = _ => replace e with c by zdm
    end. reflexivity.
  - repeat decide_if. unfold is_cont, is_surrogate. repeat decide_if;
      cbn [andb negb]; f_equal;
      match goal with
      | |- (fun s => Ok (?e :: s)) = _ => replace e with c by zdm
      end; reflexivity.
  - repeat decide_if. unfold is_cont. repeat decide_if;
      cbn [andb negb]; f_equal;
      match goal with
      | |- (fun s => Ok (?e :: s)) = _ => replace e with c by zdm
      end; reflexivity.
Qed.

Lemma decode_encode (s : str) :
  is_text s ->
  exists data : bytes, str_encode s = Ok data /\ bytes_decode data = Ok s.
Proof.
  unfold str_encode. induction 1 as [|c s Hc _ (data & IH & Hd)].
  - exists []. split; reflexivity.
  - destruct (mapR utf8_encode_char s) as [chunks|] eqn:Em; [|discriminate].
    cbn [bind] in IH. injection IH as <-.
    destruct (decode_encode_char c (concat chunks) Hc) as (bs & Hb & Hbs).
    exists (bs ++ concat chunks). cbn [mapR]. rewrite Hb. cbn [bind].
    rewrite Em. cbn [bind concat]. split; [reflexivity|].
    rewrite Hbs, Hd. reflexivity.
Qed.

Lemma unframe_framed (salt token : bytes) :
  length salt = 16%nat -> unframe (MAGIC ++ salt ++ token) = Ok (salt, token).
Proof.
  intros Hs. unfold unframe.
  assert (Hst : startswith (MAGIC ++ salt ++ token) MAGIC = true)
    by (apply startswith_MAGIC; eauto).
  rewrite Hst. cbn [negb]. f_equal. f_equal.
  - unfold slice, SALT_LEN. change (Z.to_nat (len MAGIC)) with (length MAGIC).
    rewrite drop_app_length.
    change (Z.to_nat (len MAGIC + 16 - len MAGIC)) with 16%nat.
    rewrite <- Hs. apply take_app_length.
  - rewrite drop_app_add.
    unfold SALT_LEN. change (Z.to_nat 16) with 16%nat. rewrite <- Hs.
    apply drop_app_length.
Qed.

Section RoundTrip.
Context {E : Externals} {C : FernetContract E} {W : WaveContract E}.

Lemma _read_wave_ok (audio : UploadFile) (params : wave_params)
  (frames : bytes) :
  _read_wave audio = Ok (params, frames) ->
  wave_read (file audio) = Ok (params, frames).
Proof.
  unfold _read_wave.
  destruct (negb _ || negb _); [discriminate|].
  destruct (wave_read (file audio)) as [[p f]|e]; [now intros [= -> ->]|].
  destruct e; discriminate.
Qed.

Lemma stego_response_body
  (audio : UploadFile) (params : wave_params) (stego : bytes)
  (response : StreamingResponse) :
  stego_response audio params stego = Ok response ->
  _write_wave params stego = Ok (body response).
Proof.
  unfold stego_response, StreamingResponse_init.
  destruct (_write_wave params stego) as [out_bytes|]; [|discriminate].
  cbn [bind]. destruct (mapR _ _); [|discriminate]. cbn [bind].
  now intros [= <-].
Qed.

End RoundTrip.

(** ** The stand-in libraries meet the contracts *)

Lemma plain_contract : FernetContract plain_externals.
Proof.
  split; [reflexivity|].
  intros key data current_time iv _ Hiv _. cbn.
  assert (Hs : startswith (key ++ iv ++ data) key = true).
  { unfold startswith. apply bool_decide_eq_true, take_app_length. }
  rewrite Hs. f_equal. rewrite drop_app_add, <- Hiv. apply drop_app_length.
Qed.

Lemma plain_wave_contract : WaveContract plain_externals.
Proof.
  split. intros raw params frames. cbn.
  destruct (Z.ltb_spec (len raw) (2 ^ 32)); [|discriminate].
  now intros [= _ <-].
Qed.



(** * Further properties of the module *)

(** ** [_bytes_to_bits] and [_bits_to_bytes] *)

Lemma byte_bits_lookup (b : byte) (k : nat) :
  (k < 8)%nat ->
  byte_bits b !! k
  = Some (Z.b2z (Z.testbit (byte_to_Z b) (7 - Z.of_nat k))).
Proof.
  intros Hk.
  destruct b; do 8 (destruct k as [|k]; [reflexivity|]); lia.
Qed.

Lemma flat_byte_bits_lookup (data : bytes) (j k : nat) (b : byte) :
  data !! j = Some b -> (k < 8)%nat ->
  flat_map byte_bits data !! (8 * j + k)%nat
  = Some (Z.b2z (Z.testbit (byte_to_Z b) (7 - Z.of_nat k))).
Proof.
  revert j. induction data as [|b0 data IH]; intros j Hj Hk; [discriminate|].
  cbn [flat_map]. destruct j as [|j].
  - injection Hj as ->. rewrite lookup_app_l by (rewrite byte_bits_length; lia).
    replace (8 * 0 + k)%nat with k by lia. now apply byte_bits_lookup.
  - rewrite lookup_app_r by (rewrite byte_bits_length; lia).
    rewrite byte_bits_length.
    replace (8 * S j + k - 8)%nat with (8 * j + k)%nat by lia.
    now apply IH.
Qed.

(** X1.  [_bytes_to_bits] yields eight bits per byte, each 0 or 1, most
    significant bit first: the bit at position [8 * j + k] is bit
    [7 - k] of byte [j]. *)
Theorem bytes_to_bits_layout (data : bytes) :
  len (_bytes_to_bits data) = 8 * len data /\
  Forall is_bit (_bytes_to_bits data) /\
  forall (j k : nat) (b : byte),
    data !! j = Some b -> (k < 8)%nat ->
    _bytes_to_bits data !! (8 * j + k)%nat
    = Some (Z.b2z (Z.testbit (byte_to_Z b) (7 - Z.of_nat k))).
Proof.
  split; [unfold len; rewrite _bytes_to_bits_length; lia|].
  split; [apply _bytes_to_bits_is_bit|].
  intros j k b Hj Hk. rewrite _bytes_to_bits_flat.
  now apply flat_byte_bits_lookup.
Qed.

Lemma bytes_to_bits_layout_witness :
  _bytes_to_bits (bytes_of_string "hi") !! 9%nat = Some 1.
Proof.
  destruct (bytes_to_bits_layout (bytes_of_string "hi")) as (_ & _ & H).
  apply (H 1%nat 1%nat "i"%byte); [reflexivity | lia].
Defined.

(** X2.  Bytes survive the trip through bits: [_bits_to_bytes] applied
    to [_bytes_to_bits data] returns [data], for every byte string. *)
Theorem bytes_bits_bytes_round_trip (data : bytes) :
  _bits_to_bytes (_bytes_to_bits data) = Ok data.
Proof.
  unfold _bits_to_bytes, len. rewrite _bytes_to_bits_length.
  destruct (Z.eqb_spec (Z.of_nat (8 * length data) mod 8) 0) as [_ | Hm].
  - cbn [negb]. rewrite range_step_8, _bytes_to_bits_flat.
    now apply (pack_loop data [] data []).
  - exfalso. apply Hm. rewrite Nat2Z.inj_mul, Z.mul_comm.
    apply Z_mod_mult.
Qed.

(** X3.  On a list of bits, [_bits_to_bytes] raises "Bit length must be
    multiple of 8" exactly when the length is not a multiple of 8;
    otherwise it returns the bytes whose bits are the list, one byte for
    every eight bits. *)
Theorem bits_to_bytes_on_bits (bits : list Z) :
  Forall is_bit bits ->
  (_bits_to_bytes bits = Raise (ValueError "Bit length must be multiple of 8")
   <-> len bits mod 8 <> 0) /\
  (len bits mod 8 = 0 ->
   exists data : bytes,
     _bits_to_bytes bits = Ok data /\ _bytes_to_bits data = bits /\
     8 * len data = len bits).
Proof.
  intros Hb. split.
  - split.
    + intros H Hm.
      destruct (_bits_to_bytes_decodes bits Hb Hm) as (data & Hd & _).
      rewrite Hd in H. discriminate.
    + intros Hm. unfold _bits_to_bytes.
      destruct (Z.eqb_spec (len bits mod 8) 0); [contradiction | reflexivity].
  - intros Hm.
    destruct (_bits_to_bytes_decodes bits Hb Hm) as (data & Hd & Hbits).
    exists data. repeat split; [exact Hd | exact Hbits |].
    rewrite <- Hbits. unfold len. rewrite _bytes_to_bits_length. lia.
Qed.

Lemma bits_to_bytes_on_bits_witness :
  _bits_to_bytes [0; 1; 1]
  = Raise (ValueError "Bit length must be multiple of 8") /\
  exists data : bytes,
    _bits_to_bytes [0; 1; 0; 0; 0; 0; 0; 1] = Ok data /\
    _bytes_to_bits data = [0; 1; 0; 0; 0; 0; 0; 1] /\
    8 * len data = len [0; 1; 0; 0; 0; 0; 0; 1].
Proof.
  split.
  - apply (bits_to_bytes_on_bits [0; 1; 1]).
    + repeat (constructor; [unfold is_bit; lia|]). constructor.
    + vm_compute. discriminate.
  - apply (bits_to_bytes_on_bits [0; 1; 0; 0; 0; 0; 0; 1]).
    + repeat (constructor; [unfold is_bit; lia|]). constructor.
    + reflexivity.
Defined.

(** ** [_embed_payload] *)

Lemma struct_pack_I_length (n : Z) (prefix : bytes) :
  struct_pack_I n = Ok prefix -> length prefix = 4%nat /\ 0 <= n < 2 ^ 32.
Proof.
  unfold struct_pack_I.
  destruct (Z.leb_spec 0 n) as [Hlo | Hlo]; [|discriminate].
  destruct (Z.ltb_spec n (2 ^ 32)) as [Hhi | Hhi]; [|discriminate].
  cbn [andb].
  destruct (checked_byte _); [|discriminate]; cbn [bind].
  destruct (checked_byte _); [|discriminate]; cbn [bind].
  destruct (checked_byte _); [|discriminate]; cbn [bind].
  destruct (checked_byte _); [|discriminate]; cbn [bind].
  intros [= <-]. split; [reflexivity | lia].
Qed.

(** A successful call, read backwards. *)
Lemma _embed_payload_ok_iff (frames payload out : bytes) :
  _embed_payload frames payload = Ok out <->
  exists prefix : bytes,
    struct_pack_I (len payload) = Ok prefix /\
    8 * (4 + len payload) <= len frames /\
    out = embed_bits frames (_bytes_to_bits (prefix ++ payload)).
Proof.
  unfold _embed_payload. split.
  - destruct (struct_pack_I (len payload)) as [prefix|] eqn:Ep;
      [|discriminate].
    cbn [bind]. destruct (struct_pack_I_length _ _ Ep) as [Hp _].
    rewrite (framed_bits_length prefix payload Hp).
    destruct (Z.gtb_spec (8 * (4 + len payload)) (len frames)) as [Hgt | Hle];
      [discriminate|].
    intros Hres. exists prefix. repeat split; [assumption|].
    pose proof (embed_loop (_bytes_to_bits (prefix ++ payload)) [] frames)
      as Hloop.
    cbn [app length Nat.add] in Hloop. rewrite Hloop in Hres.
    + now injection Hres.
    + apply _bytes_to_bits_is_bit.
    + pose proof (framed_bits_length prefix payload Hp). unfold len in *. lia.
  - intros (prefix & Ep & Hcap & ->). rewrite Ep. cbn [bind].
    destruct (struct_pack_I_length _ _ Ep) as [Hp _].
    rewrite (framed_bits_length prefix payload Hp).
    destruct (Z.gtb_spec (8 * (4 + len payload)) (len frames)); [lia|].
    pose proof (embed_loop (_bytes_to_bits (prefix ++ payload)) [] frames)
      as Hloop.
    cbn [app length Nat.add] in Hloop. apply Hloop.
    + apply _bytes_to_bits_is_bit.
    + pose proof (framed_bits_length prefix payload Hp). unfold len in *. lia.
Qed.

(** X4.  The wire format.  After a successful [_embed_payload] the
    least-significant bits of the first 32 samples spell [len payload]
    as a big-endian integer, those of the next [8 * len payload]
    samples spell the payload, most significant bit first, and those of
    all later samples are the input's. *)
Theorem embed_payload_wire_format (frames payload out : bytes) :
  _embed_payload frames payload = Ok out ->
  be_int (take 32 (lsbs out)) = len payload /\
  take (Z.to_nat (8 * len payload)) (drop 32 (lsbs out))
  = _bytes_to_bits payload /\
  drop (Z.to_nat (8 * (4 + len payload))) (lsbs out)
  = drop (Z.to_nat (8 * (4 + len payload))) (lsbs frames).
Proof.
  intros Hout.
  destruct (_embed_payload_cases frames payload)
    as [[_ H] | [(_ & _ & H) | (_ & Hcap & prefix & Hp & Hu & H)]];
    rewrite H in Hout; try discriminate.
  injection Hout as <-.
  split; [exact (declared_length_embed frames prefix payload Hp Hu Hcap)|].
  split; [exact (payload_bits_embed frames prefix payload Hp Hcap)|].
  pose proof (framed_bits_length prefix payload Hp) as Hbits.
  rewrite embed_bits_lsbs;
    [|apply _bytes_to_bits_is_bit | unfold len in *; lia].
  replace (Z.to_nat (8 * (4 + len payload)))
    with (length (_bytes_to_bits (prefix ++ payload)))
    by (unfold len in *; lia).
  apply drop_app_length.
Qed.

Lemma embed_payload_wire_format_witness :
  be_int (take 32 (lsbs (stego_of (loud 80) short_payload)))
  = len short_payload.
Proof.
  apply (embed_payload_wire_format (loud 80) short_payload
           (stego_of (loud 80) short_payload)).
  vm_compute. reflexivity.
Defined.

Lemma set_lsb_close (x : byte) (bit : Z) :
  is_bit bit -> Z.abs (byte_to_Z (set_lsb x bit) - byte_to_Z x) <= 1.
Proof. intros [-> | ->]; destruct x; vm_compute; discriminate. Qed.

(** X5.  Embedding moves no sample by more than one step: for every
    index, the output sample and the input sample differ by at most 1
    as integers. *)
Theorem embed_payload_step_bound (frames payload out : bytes) :
  _embed_payload frames payload = Ok out ->
  forall (i : nat) (x y : byte),
    frames !! i = Some x -> out !! i = Some y ->
    Z.abs (byte_to_Z y - byte_to_Z x) <= 1.
Proof.
  intros Hout i x y Hx Hy.
  apply _embed_payload_ok_iff in Hout as (prefix & _ & _ & ->).
  pose proof (_bytes_to_bits_is_bit (prefix ++ payload)) as Hbit.
  set (bits := _bytes_to_bits (prefix ++ payload)) in *.
  destruct (Nat.lt_ge_cases i (length bits)) as [Hi | Hi].
  - destruct (embed_bits_within frames bits i x Hbit Hi Hx)
      as (bit & Hb & Hy').
    rewrite Hy' in Hy. injection Hy as <-. apply set_lsb_close.
    eapply Forall_lookup_1 in Hbit; eauto.
  - rewrite embed_bits_beyond in Hy by exact Hi.
    rewrite Hx in Hy. injection Hy as <-. rewrite Z.sub_diag. cbn. lia.
Qed.

Lemma embed_payload_step_bound_witness :
  Z.abs (byte_to_Z "254"%byte - byte_to_Z "255"%byte) <= 1.
Proof.
  refine (embed_payload_step_bound (loud 80) short_payload
            (stego_of (loud 80) short_payload) _ 0%nat
            "255"%byte "254"%byte _ _);
    vm_compute; reflexivity.
Defined.

Lemma set_lsb_twice (x : byte) (bit : Z) :
  is_bit bit -> set_lsb (set_lsb x bit) bit = set_lsb x bit.
Proof. intros [-> | ->]; destruct x; reflexivity. Qed.

Lemma embed_bits_twice (frames : bytes) (bits : list Z) :
  Forall is_bit bits ->
  embed_bits (embed_bits frames bits) bits = embed_bits frames bits.
Proof.
  revert frames. induction bits as [|bit bits IH]; intros frames Hb.
  - reflexivity.
  - destruct frames as [|x frames]; [reflexivity|].
    inversion Hb; subst. cbn [embed_bits].
    rewrite set_lsb_twice by assumption. f_equal. now apply IH.
Qed.

(** X6.  Embedding is idempotent: embedding the same payload into the
    buffer that already carries it succeeds and returns that buffer
    unchanged. *)
Theorem embed_payload_idempotent (frames payload out : bytes) :
  _embed_payload frames payload = Ok out ->
  _embed_payload out payload = Ok out.
Proof.
  intros Hout.
  apply _embed_payload_ok_iff in Hout as (prefix & Ep & Hcap & ->).
  apply _embed_payload_ok_iff. exists prefix. split; [exact Ep|]. split.
  - unfold len. rewrite embed_bits_length. exact Hcap.
  - symmetry. apply embed_bits_twice, _bytes_to_bits_is_bit.
Qed.

Lemma embed_payload_idempotent_witness :
  _embed_payload (stego_of (loud 80) short_payload) short_payload
  = Ok (stego_of (loud 80) short_payload).
Proof.
  apply (embed_payload_idempotent (loud 80)). vm_compute. reflexivity.
Defined.

Lemma embed_bits_app (frames extra : bytes) (bits : list Z) :
  (length bits <= length frames)%nat ->
  embed_bits (frames ++ extra) bits = embed_bits frames bits ++ extra.
Proof.
  revert frames. induction bits as [|bit bits IH]; intros frames Hl.
  - reflexivity.
  - destruct frames as [|x frames]; [simpl in Hl; lia|].
    cbn [app embed_bits]. f_equal. apply IH. simpl in Hl. lia.
Qed.

(** X7.  Embedding is local to the samples it uses: when a payload fits
    a buffer, appending samples to the buffer appends the same samples,
    untouched, to the result. *)
Theorem embed_payload_longer_buffer (frames payload out extra : bytes) :
  _embed_payload frames payload = Ok out ->
  _embed_payload (frames ++ extra) payload = Ok (out ++ extra).
Proof.
  intros Hout.
  apply _embed_payload_ok_iff in Hout as (prefix & Ep & Hcap & ->).
  apply _embed_payload_ok_iff. exists prefix. split; [exact Ep|].
  destruct (struct_pack_I_length _ _ Ep) as [Hp _].
  pose proof (framed_bits_length prefix payload Hp) as Hbits.
  split.
  - unfold len in *. rewrite length_app. lia.
  - symmetry. apply embed_bits_app. unfold len in *. lia.
Qed.

Lemma embed_payload_longer_buffer_witness :
  _embed_payload (loud 80 ++ zeros 5) short_payload
  = Ok (stego_of (loud 80) short_payload ++ zeros 5).
Proof.
  apply (embed_payload_longer_buffer (loud 80)). vm_compute. reflexivity.
Defined.

(** X8.  [_embed_payload] raises nothing but the capacity error, when
    the payload is shorter than [2 ^ 32] bytes and needs more samples
    than there are, and [struct.error], when it is not shorter; the
    index reads and byte stores of its loop never fail. *)
Theorem embed_payload_raises (frames payload : bytes) (e : exn) :
  _embed_payload frames payload = Raise e ->
  (e = HTTPException 400 "Audio too small for payload" /\
   len payload < 2 ^ 32 /\ len frames < 8 * (4 + len payload)) \/
  (e = pack_error /\ 2 ^ 32 <= len payload).
Proof.
  intros He.
  destruct (_embed_payload_cases frames payload)
    as [[Hge H] | [(Hlt & Hsmall & H) | (_ & _ & prefix & _ & _ & H)]];
    rewrite H in He; try discriminate; injection He as <-; auto.
Qed.

Lemma embed_payload_raises_witness :
  (HTTPException 400 "Audio too small for payload"
   = HTTPException 400 "Audio too small for payload" /\
   len short_payload < 2 ^ 32 /\
   len (loud 8) < 8 * (4 + len short_payload)) \/
  (HTTPException 400 "Audio too small for payload" = pack_error /\
   2 ^ 32 <= len short_payload).
Proof.
  apply (embed_payload_raises (loud 8) short_payload). vm_compute.
  reflexivity.
Defined.

(** ** [_extract_payload] *)

Lemma _extract_payload_by_spec (frames : bytes) :
  _extract_payload frames = extract_payload_spec frames.
Proof.
  unfold extract_payload_spec.
  destruct (_extract_payload_cases frames)
    as [[Hs H] | [(Hl & Hc & H) | (Hl & Hc & payload' & H & Hlen & Hd)]];
    rewrite H.
  - destruct (Z.ltb_spec (len frames) 32); [reflexivity | lia].
  - destruct (Z.ltb_spec (len frames) 32); [lia|]. cbv zeta.
    destruct (Z.ltb_spec (len frames) (32 + 8 * declared_length frames));
      [reflexivity | lia].
  - destruct (Z.ltb_spec (len frames) 32); [lia|]. cbv zeta.
    destruct (Z.ltb_spec (len frames) (32 + 8 * declared_length frames));
      [lia|].
    rewrite <- Hd. now rewrite bits_to_bytes_spec_of_bytes.
Qed.

(** X9.  Extraction reads least-significant bits and nothing else: two
    buffers with the same sequence of least-significant bits give the
    same result, payload or exception, whatever their other bits. *)
Theorem extract_payload_lsbs_only (frames1 frames2 : bytes) :
  lsbs frames1 = lsbs frames2 ->
  _extract_payload frames1 = _extract_payload frames2.
Proof.
  intros H. rewrite !_extract_payload_by_spec.
  unfold extract_payload_spec, declared_length.
  assert (Hl : len frames1 = len frames2).
  { unfold len. rewrite <- (lsbs_length frames1), <- (lsbs_length frames2).
    now rewrite H. }
  now rewrite H, Hl.
Qed.

Lemma extract_payload_lsbs_only_witness :
  _extract_payload (stego_of (loud 80) short_payload)
  = _extract_payload (stego_of (zeros 80) short_payload).
Proof.
  apply extract_payload_lsbs_only. vm_compute. reflexivity.
Defined.

Lemma lsbs_app (a b : bytes) : lsbs (a ++ b) = lsbs a ++ lsbs b.
Proof. apply map_app. Qed.

(** X10.  Extraction reads only the samples the declared length covers:
    if a buffer yields a payload, the buffer followed by any further
    samples yields the same payload. *)
Theorem extract_payload_ignores_tail (frames extra payload : bytes) :
  _extract_payload frames = Ok payload ->
  _extract_payload (frames ++ extra) = Ok payload.
Proof.
  intros Hp.
  destruct (_extract_payload_cases frames)
    as [[_ H] | [(_ & _ & H) | (Hl & Hc & payload' & H & Hlen & Hd)]];
    rewrite H in Hp; try discriminate.
  injection Hp as ->.
  assert (HL : declared_length (frames ++ extra) = declared_length frames).
  { unfold declared_length. rewrite lsbs_app.
    rewrite take_app_le by (rewrite lsbs_length; unfold len in *; lia).
    reflexivity. }
  pose proof (declared_length_nonneg frames) as Hnn.
  assert (Hlen' : len (frames ++ extra) = len frames + len extra)
    by (unfold len; rewrite length_app; lia).
  assert (0 <= len extra) by (unfold len; lia).
  destruct (_extract_payload_cases (frames ++ extra))
    as [[Hs _] | [(_ & Hc' & _) | (_ & _ & payload'' & H'' & _ & Hd'')]];
    [lia | lia |].
  rewrite H''. f_equal. apply _bytes_to_bits_inj.
  rewrite Hd'', Hd, HL, lsbs_app.
  rewrite drop_app_le by (rewrite lsbs_length; unfold len in *; lia).
  rewrite take_app_le;
    [reflexivity | rewrite length_drop, lsbs_length; unfold len in *; lia].
Qed.

Lemma extract_payload_ignores_tail_witness :
  _extract_payload (stego_of (loud 80) short_payload ++ loud 7)
  = Ok short_payload.
Proof.
  apply extract_payload_ignores_tail. vm_compute. reflexivity.
Defined.

Lemma be_int_bound (bits : list Z) :
  Forall is_bit bits -> be_int bits < 2 ^ len bits.
Proof.
  induction 1 as [|b bits Hbit _ IH].
  - vm_compute. reflexivity.
  - unfold be_int. cbn [fold_left]. rewrite be_int_acc.
    replace (len (b :: bits)) with (len bits + 1)
      by (unfold len; cbn [length]; lia).
    rewrite Z.pow_add_r by (unfold len; lia). change (2 ^ 1) with 2.
    assert (0 < 2 ^ len bits) by (apply Z.pow_pos_nonneg; unfold len; lia).
    destruct Hbit as [-> | ->]; lia.
Qed.

(** X11.  What [_extract_payload] can answer.  A returned payload fits
    the buffer it came from, [32 + 8 * len payload <= len frames], and
    is shorter than [2 ^ 32] bytes; the only exceptions are "Audio too
    short" and "Corrupted or incomplete data", so the index reads, the
    bit packing and [struct.unpack] never fail. *)
Theorem extract_payload_answers (frames : bytes) :
  (forall payload : bytes,
     _extract_payload frames = Ok payload ->
     32 + 8 * len payload <= len frames /\ len payload < 2 ^ 32) /\
  (forall e : exn,
     _extract_payload frames = Raise e ->
     (e = HTTPException 400 "Audio too short" /\ len frames < 32) \/
     (e = HTTPException 400 "Corrupted or incomplete data" /\
      32 <= len frames)).
Proof.
  destruct (_extract_payload_cases frames)
    as [[Hs H] | [(Hl & Hc & H) | (Hl & Hc & payload' & H & Hlen & Hd)]];
    rewrite H; split; try discriminate.
  - intros e [= <-]. auto.
  - intros e [= <-]. auto.
  - intros payload [= <-]. split; [lia|]. rewrite Hlen.
    unfold declared_length.
    pose proof (be_int_bound (take 32 (lsbs frames))
                  (take_is_bit 32 _ (lsbs_is_bit frames))) as Hb.
    unfold len in Hb. rewrite length_take, lsbs_length in Hb.
    unfold len in Hl.
    replace (Z.of_nat (32 `min` length frames)) with 32 in Hb by lia.
    exact Hb.
Qed.

Lemma extract_payload_answers_witness :
  32 + 8 * len short_payload <= len (stego_of (loud 80) short_payload) /\
  len short_payload < 2 ^ 32.
Proof.
  apply (extract_payload_answers (stego_of (loud 80) short_payload)).
  vm_compute. reflexivity.
Defined.

(** X12.  Truncation is detected.  If [_embed_payload] returned [out]
    and only the first [n] samples of [out] survive, with [n] less than
    the [8 * (4 + len payload)] the payload needs, extraction fails:
    with "Audio too short" when [n < 32], with "Corrupted or incomplete
    data" otherwise.  It never returns a shortened payload. *)
Theorem truncation_detected (frames payload out : bytes) (n : nat) :
  _embed_payload frames payload = Ok out ->
  Z.of_nat n < 8 * (4 + len payload) ->
  _extract_payload (take n out)
  = Raise (HTTPException 400
             (if (n <? 32)%nat then "Audio too short"
              else "Corrupted or incomplete data")).
Proof.
  intros Hout Hn.
  pose proof (_embed_payload_length _ _ _ Hout) as Hlen.
  destruct (_embed_payload_cases frames payload)
    as [[_ H] | [(_ & _ & H) | (_ & Hcap & prefix & Hp & Hu & H)]];
    rewrite H in Hout; try discriminate.
  injection Hout as Hout.
  pose proof (declared_length_embed frames prefix payload Hp Hu Hcap) as HL.
  rewrite Hout in HL.
  assert (Hlt : len (take n out) = Z.of_nat n).
  { unfold len in *. rewrite length_take. lia. }
  destruct (Nat.ltb_spec n 32) as [Hshort | Hlong].
  - destruct (_extract_payload_cases (take n out))
      as [[_ Hx] | [(Hl & _) | (Hl & _)]]; [exact Hx | lia | lia].
  - assert (HL' : declared_length (take n out) = len payload).
    { rewrite <- HL. unfold declared_length, lsbs.
      rewrite <- !firstn_map. fold (lsbs out).
      rewrite take_take. now replace (32 `min` n)%nat with 32%nat by lia. }
    destruct (_extract_payload_cases (take n out))
      as [[Hs _] | [(_ & _ & Hx) | (_ & Hc & _)]]; [lia | exact Hx | lia].
Qed.

Lemma truncation_detected_witness :
  _extract_payload (take 79 (stego_of (loud 80) short_payload))
  = Raise (HTTPException 400 "Corrupted or incomplete data").
Proof.
  apply (truncation_detected (loud 80) short_payload
           (stego_of (loud 80) short_payload) 79);
    [vm_compute; reflexivity | vm_compute; reflexivity].
Defined.

(** ** [_read_wave] *)

Lemma lower_length (s : str) : length (lower s) = length s.
Proof. apply length_map. Qed.

Lemma endswith_wav (name : str) :
  endswith (lower name) (str_of_string ".wav") = true <-> wav_name name.
Proof.
  unfold endswith, wav_name. rewrite andb_true_iff, bool_decide_eq_true.
  rewrite lower_length. change (length (str_of_string ".wav")) with 4%nat.
  split.
  - intros [Hl Hd]. apply Nat.leb_le in Hl.
    unfold lower in Hd. rewrite skipn_map in Hd.
    pose proof (take_drop (length name - 4) name) as Hsplit.
    assert (Hlen : length (drop (length name - 4) name) = 4%nat)
      by (rewrite length_drop; lia).
    destruct (drop (length name - 4) name)
      as [|c0 [|c1 [|c2 [|c3 [|? ?]]]]]; try discriminate.
    exists (take (length name - 4) name), c1, c2, c3.
    cbn [map] in Hd. injection Hd as H0 H1 H2 H3.
    repeat match goal with
           | H : (if ?c then _ else _) = _ |- _ =>
               destruct c eqn:?; try lia
           end;
      repeat match goal with
             | H : _ && _ = true |- _ => apply andb_true_iff in H as [? ?]
             | H : (_ <=? _) = true |- _ => apply Z.leb_le in H
             end;
      try lia; subst c0; (split; [now symmetry|]); lia.
  - intros (stem & c1 & c2 & c3 & -> & H1 & H2 & H3).
    rewrite length_app. cbn [length]. split; [apply Nat.leb_le; lia|].
    replace (length stem + 4 - 4)%nat with (length (lower stem))
      by (rewrite lower_length; lia).
    unfold lower. rewrite map_app. fold (lower stem).
    rewrite drop_app_length.
    destruct H1 as [-> | ->], H2 as [-> | ->], H3 as [-> | ->]; reflexivity.
Qed.

Section MoreEndpoints.
Context {E : Externals}.

(** X13.  [_read_wave] looks at the file name first.  Without a name,
    or with a name that does not end in a dot followed by w, a, v in
    either case, it answers "Only WAV files are supported" whatever the
    content is.  With such a name the library decides: its frames are
    passed on, [wave.Error] becomes "Invalid WAV file", and any other
    exception of the library passes through unchanged. *)
Theorem read_wave_outcomes (upload : UploadFile) :
  ((filename upload = None \/
    exists name, filename upload = Some name /\ ~ wav_name name) ->
   _read_wave upload
   = Raise (HTTPException 400 "Only WAV files are supported")) /\
  (forall name : str,
     filename upload = Some name -> wav_name name ->
     (forall pf, wave_read (file upload) = Ok pf -> _read_wave upload = Ok pf)
     /\ (wave_read (file upload) = Raise WaveError ->
         _read_wave upload = Raise (HTTPException 400 "Invalid WAV file"))
     /\ (forall e, wave_read (file upload) = Raise e -> e <> WaveError ->
                   _read_wave upload = Raise e)).
Proof.
  unfold _read_wave. split.
  - intros [-> | (name & -> & Hn)]; [reflexivity|].
    cbn [default from_option id].
    destruct name as [|c name]; [reflexivity|]. cbn [truthy negb orb].
    destruct (endswith (lower (c :: name)) (str_of_string ".wav")) eqn:Ee;
      [|reflexivity].
    apply endswith_wav in Ee. contradiction.
  - intros name -> Hn. cbn [default from_option id].
    assert (Ht : truthy name = true).
    { destruct Hn as (stem & ? & ? & ? & -> & _). now destruct stem. }
    apply endswith_wav in Hn. rewrite Ht, Hn. cbn [negb orb].
    split; [|split].
    + intros [params frames] ->. reflexivity.
    + intros ->. reflexivity.
    + intros e -> He. destruct e; congruence.
Qed.
End MoreEndpoints.

Lemma read_wave_outcomes_witness :
  _read_wave {| filename := Some (str_of_string "notes.txt");
                file := zeros 10 |}
  = Raise (HTTPException 400 "Only WAV files are supported") /\
  _read_wave {| filename := Some (str_of_string "Voice.WaV");
                file := zeros 10 |}
  = Ok (tt, zeros 10).
Proof.
  split.
  - apply (read_wave_outcomes (E := plain_externals)). right.
    exists (str_of_string "notes.txt"). split; [reflexivity|].
    intros (stem & c1 & c2 & c3 & Heq & _ & _ & H3).
    apply (f_equal (@rev Z)) in Heq. rewrite rev_app_distr in Heq.
    cbn in Heq. injection Heq as Hc3 _. lia.
  - destruct (read_wave_outcomes (E := plain_externals)
                {| filename := Some (str_of_string "Voice.WaV");
                   file := zeros 10 |}) as [_ H].
    destruct (H (str_of_string "Voice.WaV")) as (Hok & _).
    + reflexivity.
    + exists (str_of_string "Voice"), 0x57, 0x61, 0x56.
      split; [reflexivity|]. lia.
    + apply Hok. reflexivity.
Defined.

(** ** [embed] *)

Lemma before_last_none (sep : Z) (s : str) :
  Forall (fun c => c <> sep) s -> before_last sep s = None.
Proof.
  induction 1 as [|c s Hc _ IH]; [reflexivity|].
  cbn [before_last]. rewrite IH.
  destruct (Z.eqb_spec c sep); [contradiction | reflexivity].
Qed.

Lemma before_last_app (sep : Z) (stem ext : str) :
  Forall (fun c => c <> sep) ext ->
  before_last sep (stem ++ sep :: ext) = Some stem.
Proof.
  intros Hext. induction stem as [|c stem IH].
  - cbn [app before_last]. rewrite (before_last_none sep ext Hext).
    now rewrite Z.eqb_refl.
  - cbn [app before_last]. now rewrite IH.
Qed.

Section EmbedEndpoint.
Context {E : Externals}.

(** A successful [embed], read backwards. *)
Lemma embed_ok_inv
  (audio : UploadFile) (message passcode : str) (w w' : World)
  (response : StreamingResponse) :
  embed audio message passcode w = (Ok response, w') ->
  exists (params : wave_params) (frames stego : bytes) (name : str),
    strip message <> [] /\
    _read_wave audio = Ok (params, frames) /\
    filename audio = Some name /\ wav_name name /\
    _embed_payload frames
      (MAGIC ++ map (entropy w) (seq (cursor w) 16)
             ++ embed_token message passcode w) = Ok stego /\
    _write_wave params stego = Ok (body response) /\
    media_type response = "audio/wav"%string /\
    headers response
    = [("Content-Disposition"%string,
        str_of_string "attachment; filename="
        ++ rsplit1_head name 0x2E ++ str_of_string "_stego.wav")] /\
    w' = {| entropy := entropy w; cursor := cursor w + 16 + 16;
            clock := clock w |}.
Proof.
  unfold embed.
  destruct (strip message) as [|c0 m0] eqn:Es; [discriminate|].
  cbn [truthy negb].
  cbv beta iota delta [bindIO lift ret Fernet_encrypt os_urandom].
  destruct (_read_wave audio) as [[params frames]|] eqn:Er; [|discriminate].
  cbv beta iota.
  change (Z.to_nat SALT_LEN) with 16%nat. change (Z.to_nat 16) with 16%nat.
  unfold derive_key, embed_token.
  destruct passcode as [|p0 ps]; [discriminate|]. cbn [truthy negb].
  destruct (str_encode (p0 :: ps)) as [material|]; [|discriminate].
  cbn [bind]. cbv beta iota. unfold Fernet.
  destruct (fernet_key_ok _); [|discriminate]. cbv beta iota.
  destruct (str_encode message) as [data|]; [|discriminate].
  cbv beta iota zeta. cbn [clock cursor entropy].
  destruct (_embed_payload frames _) as [stego|] eqn:Ee; [|discriminate].
  unfold stego_response, StreamingResponse_init.
  destruct (_write_wave params stego) as [out_bytes|] eqn:Ew;
    [|discriminate].
  cbn [bind]. destruct (mapR _ _) as [encoded|]; [|discriminate].
  cbn [bind]. intros [= <- <-].
  assert (Hname : exists name, filename audio = Some name /\ wav_name name).
  { unfold _read_wave in Er. destruct (filename audio) as [name|].
    - cbn [default from_option id] in Er. exists name. split; [reflexivity|].
      apply endswith_wav.
      destruct (endswith (lower name) (str_of_string ".wav"));
        [reflexivity|]. rewrite orb_true_r in Er. discriminate.
    - discriminate. }
  destruct Hname as (name & Hf & Hn).
  exists params, frames, stego, name.
  split; [discriminate|]. split; [reflexivity|]. split; [exact Hf|].
  split; [exact Hn|]. split; [exact Ee|]. split; [exact Ew|].
  split; [reflexivity|]. split; [|reflexivity].
  cbn [headers]. rewrite Hf. cbn [default from_option id].
  assert (Ht : truthy name = true).
  { destruct Hn as (stem & ? & ? & ? & -> & _). now destruct stem. }
  rewrite Ht. reflexivity.
Qed.

(** X14.  The download name.  When [embed] succeeds, the upload's name
    is some [stem] followed by a dot and the letters w, a, v, each in
    either case, and the response is an "audio/wav" attachment named
    [stem] followed by "_stego.wav": the extension is rewritten in lower
    case and the fallback name "stego.wav" is never used. *)
Theorem embed_download_name
  (audio : UploadFile) (message passcode : str) (w w' : World)
  (response : StreamingResponse) :
  embed audio message passcode w = (Ok response, w') ->
  exists (stem : str) (c1 c2 c3 : Z),
    filename audio = Some (stem ++ [0x2E; c1; c2; c3]) /\
    (c1 = 0x77 \/ c1 = 0x57) /\ (c2 = 0x61 \/ c2 = 0x41) /\
    (c3 = 0x76 \/ c3 = 0x56) /\
    media_type response = "audio/wav"%string /\
    headers response
    = [("Content-Disposition"%string,
        str_of_string "attachment; filename=" ++ stem
        ++ str_of_string "_stego.wav")].
Proof.
  intros H.
  apply embed_ok_inv
    in H as (params & frames & stego & name & _ & _ & Hf & Hn & _ & _
             & Hmedia & Hh & _).
  destruct Hn as (stem & c1 & c2 & c3 & -> & H1 & H2 & H3).
  exists stem, c1, c2, c3. split; [exact Hf|].
  split; [exact H1|]. split; [exact H2|]. split; [exact H3|].
  split; [exact Hmedia|].
  rewrite Hh. unfold rsplit1_head.
  rewrite (before_last_app 0x2E stem [c1; c2; c3]).
  - reflexivity.
  - repeat (constructor; [lia|]). constructor.
Qed.

(** X15.  What [embed] hides.  When [embed] succeeds on samples
    [frames], the response is the container of samples [stego], as many
    as [frames], from which [_extract_payload] returns the marker, then
    the 16 bytes the random source delivered first, then the token;
    [embed] has drawn 32 random bytes in all and left the clock alone. *)
Theorem embed_hides_framed_token
  (audio : UploadFile) (params : wave_params) (frames : bytes)
  (message passcode : str) (w w' : World) (response : StreamingResponse) :
  _read_wave audio = Ok (params, frames) ->
  embed audio message passcode w = (Ok response, w') ->
  exists stego : bytes,
    _write_wave params stego = Ok (body response) /\
    length stego = length frames /\
    _extract_payload stego
    = Ok (MAGIC ++ map (entropy w) (seq (cursor w) 16)
                ++ embed_token message passcode w) /\
    cursor w' = (cursor w + 32)%nat /\ clock w' = clock w /\
    entropy w' = entropy w.
Proof.
  intros Hr H.
  apply embed_ok_inv
    in H as (params' & frames' & stego & name & _ & Hr' & _ & _ & He & Hw
             & _ & _ & ->).
  rewrite Hr in Hr'. injection Hr' as <- <-.
  exists stego. split; [exact Hw|].
  split; [exact (_embed_payload_length _ _ _ He)|].
  split; [|cbn; repeat split; lia].
  pose proof He as He'.
  apply _embed_payload_ok_iff in He' as (prefix & Ep & Hcap & _).
  destruct (struct_pack_I_length _ _ Ep) as [_ Hrange].
  destruct (embed_then_extract frames _ (proj2 Hrange) Hcap)
    as (out & Hout & Hx).
  rewrite He in Hout. injection Hout as <-. exact Hx.
Qed.

(** X16.  An empty passcode is not refused at the door.  With a message
    that is not blank and a readable WAV upload, [embed] draws the
    16-byte salt and only then fails, in [derive_key], with the
    [ValueError] "Passcode is required": it is not an [HTTPException],
    unlike the refusal of a blank message. *)
Theorem embed_empty_passcode
  (audio : UploadFile) (params : wave_params) (frames : bytes)
  (message : str) (w : World) :
  strip message <> [] ->
  _read_wave audio = Ok (params, frames) ->
  embed audio message [] w
  = (Raise (ValueError "Passcode is required"),
     {| entropy := entropy w; cursor := cursor w + 16; clock := clock w |}).
Proof.
  intros Hs Hr. unfold embed.
  destruct (strip message) as [|c0 m0]; [congruence|]. cbn [truthy negb].
  cbv beta iota delta [bindIO lift ret os_urandom].
  rewrite Hr. reflexivity.
Qed.
End EmbedEndpoint.

Lemma embed_download_name_witness :
  exists (response : StreamingResponse) (w' : World),
    embed (sample_audio 2000) (str_of_string "HI")
          (str_of_string "secret123") sample_world = (Ok response, w') /\
    headers response
    = [("Content-Disposition"%string,
        str_of_string "attachment; filename=voice_stego.wav")].
Proof.
  destruct (embed (sample_audio 2000) (str_of_string "HI")
              (str_of_string "secret123") sample_world)
    as [[response|e] w'] eqn:He; [|vm_compute in He; discriminate].
  exists response, w'. split; [reflexivity|].
  destruct (embed_download_name (E := plain_externals) _ _ _ _ _ _ He)
    as (stem & c1 & c2 & c3 & Hf & _ & _ & _ & _ & Hh).
  rewrite Hh.
  cbn [sample_audio filename] in Hf. injection Hf as Hf.
  apply (f_equal (@rev Z)) in Hf. rewrite rev_app_distr in Hf.
  cbn in Hf. injection Hf as _ _ _ Hstem.
  apply (f_equal (@rev Z)) in Hstem. rewrite rev_involutive in Hstem.
  rewrite <- Hstem. reflexivity.
Defined.

Lemma embed_hides_framed_token_witness :
  exists (response : StreamingResponse) (w' : World) (stego : bytes),
    embed (sample_audio 2000) (str_of_string "HI")
          (str_of_string "secret123") sample_world = (Ok response, w') /\
    _write_wave tt stego = Ok (body response) /\
    _extract_payload stego
    = Ok (MAGIC ++ map (entropy sample_world) (seq 0 16)
                ++ embed_token (str_of_string "HI")
                     (str_of_string "secret123") sample_world).
Proof.
  destruct (embed (sample_audio 2000) (str_of_string "HI")
              (str_of_string "secret123") sample_world)
    as [[response|e] w'] eqn:He; [|vm_compute in He; discriminate].
  destruct (embed_hides_framed_token (E := plain_externals)
              (sample_audio 2000) tt (zeros 2000) _ _ _ _ _ eq_refl He)
    as (stego & Hb & _ & Hx & _).
  exists response, w', stego. split; [reflexivity|].
  split; [exact Hb | exact Hx].
Defined.

Lemma embed_empty_passcode_witness :
  fst (embed (sample_audio 2000) (str_of_string "HI") [] sample_world)
  = Raise (ValueError "Passcode is required").
Proof.
  rewrite (embed_empty_passcode (E := plain_externals)
             (sample_audio 2000) tt (zeros 2000));
    [reflexivity | vm_compute; discriminate | reflexivity].
Defined.

(** ** [extract] *)

Lemma str_encode_raises (s : str) (e : exn) :
  str_encode s = Raise e -> e = UnicodeEncodeError.
Proof.
  unfold str_encode.
  assert (H : forall e, mapR utf8_encode_char s = Raise e ->
                        e = UnicodeEncodeError).
  { induction s as [|c s IH]; intros e0; [discriminate|].
    cbn [mapR]. unfold utf8_encode_char at 1.
    destruct (negb (is_code_point c) || is_surrogate c).
    - cbn [bind]. now intros [= <-].
    - repeat match goal with
             | |- context [if ?b then _ else _] => destruct b
             end; cbn [bind];
        (destruct (mapR utf8_encode_char s) as [chunks|e1];
         [discriminate | cbn [bind]; intros [= <-]; now apply IH]). }
  destruct (mapR utf8_encode_char s) as [chunks|e1]; [discriminate|].
  cbn [bind]. intros [= <-]. now apply H.
Qed.

Lemma bytes_decode_raises (n : nat) (data : bytes) (e : exn) :
  (length data <= n)%nat ->
  bytes_decode data = Raise e -> e = UnicodeDecodeError.
Proof.
  revert data e. induction n as [|n IH]; intros data e Hl H.
  - destruct data; [discriminate | simpl in Hl; lia].
  - destruct data as [|b0 r0]; [discriminate|].
    cbn [bytes_decode] in H. cbv zeta in H. cbn [length] in Hl.
    repeat match type of H with
           | Raise _ = Raise _ => injection H as <-; reflexivity
           | bind (bytes_decode ?r) _ = Raise _ =>
               let E := fresh "E" in
               destruct (bytes_decode r) as [?|?] eqn:E;
               [discriminate
               | cbn [bind] in H; injection H as <-;
                 eapply IH; [|exact E]; cbn [length] in *; lia]
           | context [if ?c then _ else _] => destruct c
           | context [match ?l with [] => _ | _ :: _ => _ end] =>
               destruct l; cbn [length] in Hl
           end.
Qed.

Section ExtractEndpoint.
Context {E : Externals}.

Lemma decrypt_message_raises (passcode : str) (salt token : bytes) (e : exn) :
  decrypt_message passcode salt token = Raise e ->
  is_InvalidToken e || is_ValueError e = true.
Proof.
  unfold decrypt_message, derive_key, Fernet, Fernet_decrypt.
  destruct (truthy passcode); cbn [negb bind]; [|now intros [= <-]].
  destruct (str_encode passcode) as [material|e0] eqn:Em; cbn [bind].
  2:{ intros [= <-]. now rewrite (str_encode_raises _ _ Em). }
  destruct (fernet_key_ok _); cbn [bind]; [|now intros [= <-]].
  destruct (fernet_decrypt _ token) as [plaintext|]; cbn [bind];
    [|now intros [= <-]].
  intros H. now rewrite (bytes_decode_raises _ _ _ (Nat.le_refl _) H).
Qed.

(** X17.  What [extract] can raise.  An exception of [extract] is either
    the one [_read_wave] raised for the upload, or an [HTTPException]
    with status 400 and one of four messages: "Audio too short",
    "Corrupted or incomplete data", "No hidden payload found", "Invalid
    passcode or payload".  No [ValueError], [InvalidToken], index or
    [struct] error leaves the function. *)
Theorem extract_raises (audio : UploadFile) (passcode : str) (e : exn) :
  extract audio passcode = Raise e ->
  _read_wave audio = Raise e \/
  exists detail : string,
    e = HTTPException 400 detail /\ In detail extract_details.
Proof.
  unfold extract.
  destruct (_read_wave audio) as [[params frames]|e0]; cbn [bind];
    [|intros [= <-]; now left].
  intros H. right.
  destruct (_extract_payload frames) as [payload|e1] eqn:Ex; cbn [bind] in H.
  2:{ injection H as <-.
      destruct (_extract_payload_cases frames)
        as [[_ Hx] | [(_ & _ & Hx) | (_ & _ & ? & Hx & _)]];
        rewrite Hx in Ex; try discriminate; injection Ex as <-;
        eexists; (split; [reflexivity|]); cbn; auto. }
  unfold unframe in H.
  destruct (startswith payload MAGIC); cbn [negb bind] in H.
  2:{ injection H as <-. eexists. split; [reflexivity|]. cbn. auto. }
  destruct (decrypt_message passcode _ _) as [message|e2] eqn:Ed;
    cbn [except_invalid bind] in H; [discriminate|].
  rewrite (decrypt_message_raises _ _ _ _ Ed) in H. injection H as <-.
  eexists. split; [reflexivity|]. cbn. auto.
Qed.

(** X18.  Framing and its inverse.  The payload [embed] builds, marker
    then salt then token, is split back into that salt and that token
    by the slices of [extract] exactly when the salt has 16 bytes, or
    has fewer and the token is empty. *)
Theorem frame_unframe (salt token : bytes) :
  unframe (MAGIC ++ salt ++ token) = Ok (salt, token) <->
  length salt = 16%nat \/ ((length salt < 16)%nat /\ token = []).
Proof.
  assert (Hu : unframe (MAGIC ++ salt ++ token)
               = Ok (take 16 (salt ++ token), drop 16 (salt ++ token))).
  { unfold unframe.
    assert (Hst : startswith (MAGIC ++ salt ++ token) MAGIC = true)
      by (apply startswith_MAGIC; eauto).
    rewrite Hst. reflexivity. }
  rewrite Hu. split.
  - intros [= Ht Hd].
    destruct (Nat.lt_trichotomy (length salt) 16) as [Hlt | [Heq | Hgt]].
    + right. split; [exact Hlt|].
      rewrite take_app_ge in Ht by lia.
      apply (f_equal (@length byte)) in Ht.
      rewrite length_app, length_take in Ht.
      destruct token; [reflexivity | cbn [length] in Ht; lia].
    + now left.
    + apply (f_equal (@length byte)) in Ht.
      rewrite length_take, length_app in Ht. lia.
  - intros [Heq | [Hlt ->]].
    + rewrite <- Heq. now rewrite take_app_length, drop_app_length.
    + rewrite app_nil_r.
      rewrite take_ge, drop_ge by lia. reflexivity.
Qed.
End ExtractEndpoint.

Lemma extract_raises_witness :
  _read_wave (sample_audio 2000)
  = Raise (HTTPException 400 "No hidden payload found") \/
  exists detail : string,
    HTTPException 400 "No hidden payload found" = HTTPException 400 detail /\
    In detail extract_details.
Proof.
  apply (extract_raises (E := plain_externals) (sample_audio 2000)
           (str_of_string "secret123")).
  vm_compute. reflexivity.
Defined.

Lemma frame_unframe_witness :
  unframe (MAGIC ++ zeros 16 ++ bytes_of_string "token")
  = Ok (zeros 16, bytes_of_string "token").
Proof.
  apply (frame_unframe (zeros 16) (bytes_of_string "token")).
  left. reflexivity.
Defined.
